(** * SoundStorm masking and scheduling engine: a shallow embedding

    Source: [src/model/soundstorm.py].  The development embeds

    - the constructor [SoundStorm.__init__] (as [init]),
    - the training masker [_level_mask], [_fine_mask], [_masking] and the
      first lines of [forward],
    - the logit filter [top_k],
    - the iterative decoder [generate].

    Conventions.

    - A tensor of codes of shape (batch, time, levels) is stored by its
      level rows: [codes[:, :, l]] is the [l]-th element of a list.  This
      is the layout [_masking] itself switches to (['b n q -> q b n']) and
      the only way [generate] reads or writes [seq] and [mask].
    - The conformer, the Gumbel noise and the softmax are outside the
      embedding: one decoding step receives the sampled ids and the
      confidence scores from an oracle [model_step].
    - The operations on rows are meant for rows of one length, which
      the theorems establish or assume; on rows of different lengths they
      stop at the shorter one, where torch would raise.
    - Step counts and lengths are natural numbers, codes are integers.
    - Floating point is idealised.  Values that are only compared or sorted
      (scores, logits, the filter threshold) are rationals; the two places
      that go through [torch.cos] use the real cosine, so rounding inside
      float32 is not modelled. *)

From Stdlib Require Import List ZArith QArith Qround Reals Lia Lra Bool Arith.
From Stdlib Require Import Permutation Sorted.
Import ListNotations.

Local Open Scope Z_scope.

(** ** Exceptions *)

Inductive exn : Type :=
| AssertionError
| IndexError
| RuntimeError
| UnboundLocalError.

Inductive result (A : Type) : Type :=
| Ok (a : A)
| Raise (e : exn).

Arguments Ok {A} a.
Arguments Raise {A} e.

Definition bind {A B : Type} (r : result A) (f : A -> result B) : result B :=
  match r with
  | Ok a => f a
  | Raise e => Raise e
  end.

Notation "x <- r ;; k" := (bind r (fun x => k))
  (at level 61, r at next level, right associativity).

(** ** Tensor rows *)

(** [torch.where(cond, x, y)] on rows of one shape. *)
Fixpoint where_ {A : Type} (cond : list bool) (x y : list A) : list A :=
  match cond, x, y with
  | c :: cond', a :: x', b :: y' => (if c then a else b) :: where_ cond' x' y'
  | _, _, _ => []
  end.

(** [torch.where(cond, x, v)] with a scalar in the else branch. *)
Fixpoint where_else {A : Type} (cond : list bool) (x : list A) (v : A) : list A :=
  match cond, x with
  | c :: cond', a :: x' => (if c then a else v) :: where_else cond' x' v
  | _, _ => []
  end.

(** [x.masked_fill(m, v)], also [torch.where(m, v, x)]. *)
Fixpoint masked_fill {A : Type} (x : list A) (m : list bool) (v : A) : list A :=
  match x, m with
  | a :: x', c :: m' => (if c then v else a) :: masked_fill x' m' v
  | _, _ => []
  end.

(** [torch.zeros(n, dtype=bool).scatter(1, idx, True)]. *)
Definition scatter_true (n : nat) (idx : list nat) : list bool :=
  map (fun p => existsb (Nat.eqb p) idx) (seq 0 n).

(** [t[..., l] = row]: assignment of one level row. *)
Fixpoint set_row {A : Type} (l : nat) (row : A) (t : list A) : list A :=
  match t, l with
  | [], _ => []
  | _ :: rest, O => row :: rest
  | r :: rest, S l' => r :: set_row l' row rest
  end.

Definition count_true (m : list bool) : nat := length (filter (fun b => b) m).

Definition count_eq (v : Z) (row : list Z) : nat :=
  length (filter (Z.eqb v) row).

(** [row[t:] = v]: slice assignment of a scalar. *)
Definition assign_from {A : Type} (t : nat) (v : A) (row : list A) : list A :=
  firstn t row ++ repeat v (length row - t).

(** [torch.cat([a, b], dim=1)]: concatenation along time, level by level.
    The other dimensions have to agree, here the number of levels. *)
Definition cat_time (a b : list (list Z)) : result (list (list Z)) :=
  if Nat.eqb (length a) (length b)
  then Ok (map (fun ab => fst ab ++ snd ab) (combine a b))
  else Raise RuntimeError.

Fixpoint mapM {A B : Type} (f : A -> result B) (l : list A) : result (list B) :=
  match l with
  | [] => Ok []
  | a :: l' => b <- f a ;; bs <- mapM f l' ;; Ok (b :: bs)
  end.

(** ** [Tensor.topk] on a row of scores

    The indices of the [k] largest entries.  [torch.topk] raises when [k]
    is negative or exceeds the row.  Which of several equal entries is taken
    is left open by torch; here the earlier index wins, and the theorems
    rely on the contract lemmas [topk_length], [topk_NoDup], [topk_bound]
    and [topk_dominates] only. *)

Fixpoint insert_desc (a : Q * nat) (l : list (Q * nat)) : list (Q * nat) :=
  match l with
  | [] => [a]
  | b :: l' =>
      if Qle_bool (fst b) (fst a) then a :: l else b :: insert_desc a l'
  end.

Definition ranked (scores : list Q) : list (Q * nat) :=
  fold_right insert_desc [] (combine scores (seq 0 (length scores))).

Definition topk (scores : list Q) (k : Z) : result (list nat) :=
  if (k <? 0) || (Z.of_nat (length scores) <? k) then Raise RuntimeError
  else Ok (map snd (firstn (Z.to_nat k) (ranked scores))).

(** ** The model object *)

Record Config : Type := {
  acoustic_codebook_size : Z;
  acoustic_num_quantizers : nat;
  inference_steps : list nat;
  cfg_filter_threshold : Q;
  cfg_temperature : Q
}.

Record SoundStorm : Type := {
  steps : list nat;
  filter_threshold : Q;
  temperature : Q;
  ignore_index : Z;
  n_q : nat;
  mask_token_id : Z;
  mask_upper_level : Z
}.

(** [SoundStorm.__init__], the fields the masking engine reads.  The only
    check of the configuration is [assert self.ignore_index == 1025]. *)
Definition init (config : Config) : result SoundStorm :=
  let ignore_index := acoustic_codebook_size config in
  if ignore_index =? 1025 then
    Ok {| steps := inference_steps config;
          filter_threshold := cfg_filter_threshold config;
          temperature := cfg_temperature config;
          ignore_index := ignore_index;
          n_q := acoustic_num_quantizers config;
          mask_token_id := acoustic_codebook_size config;
          mask_upper_level := acoustic_codebook_size config |}
  else Raise AssertionError.

(** ** The cosine schedule *)

(** [torch.cos(t * math.pi * 0.5)]. *)
Definition cosine_schedule (t : R) : R := cos (t * PI * (1 / 2)).

(** [torch.linspace(0., 1., steps)]. *)
Definition linspace01 (steps : nat) : list R :=
  map (fun i => (INR i / INR (steps - 1))%R) (seq 0 steps).

(** [Tensor.long()]: truncation toward zero. *)
Definition long (x : R) : Z :=
  if Rle_dec 0 x then Int_part x else - Int_part (- x).

(** [(cosine_schedule(times[1:]) * seq_len).long()] with
    [times = torch.linspace(0., 1., iter_steps + 1)]. *)
Definition all_mask_num_tokens (iter_steps seq_len : nat) : list Z :=
  map (fun t => long (cosine_schedule t * INR seq_len))
      (tl (linspace01 (iter_steps + 1))).

(** ** [top_k] *)

(** One position: [logits.topk(k)] and the scatter into a row of [-inf];
    [None] is [-inf]. *)
Definition top_k_row (k : Z) (row : list Q) : result (list (option Q)) :=
  ind <- topk row k ;;
  Ok (map (fun j => if existsb (Nat.eqb j) ind then Some (nth j row 0%Q) else None)
          (seq 0 (length row))).

(** [top_k(logits, thres)]; [logits.shape[-1]] is the length of a row. *)
Definition top_k (logits : list (list Q)) (thres : Q) : result (list (list (option Q))) :=
  let k := Qceiling ((1 - thres) * inject_Z (Z.of_nat (length (hd [] logits)))) in
  mapM (top_k_row k) logits.

Definition finite_logits (row : list (option Q)) : nat :=
  length (filter (fun x => match x with Some _ => true | None => false end) row).

(** ** [generate] *)

(** [seq] and [mask], of shape (1, seq_len, 8), by level rows. *)
Record GenState : Type := {
  gs_seq : list (list Z);
  gs_mask : list (list bool)
}.

(** What one pass through the body of the inner loop saw and did. *)
Record StepLog : Type := {
  log_layer : nat;
  log_step : nat;
  log_target : Z;
  log_input : list (list Z);
  log_sampled : list Z;
  log_before : GenState;
  log_after : GenState
}.

(** [-torch.finfo(torch.float32).max]. *)
Definition neg_finfo_max : Q := (-340282346638528859811704183484516925440) # 1.

Section Generate.

(** The network and the sampler.  [model_step rvq_layer i input] stands for
    lines 328-342 at step [i] of level [rvq_layer]: it returns
    [sampled_ids] and [scores] for the positions after the prompt. *)
Variable model_step : nat -> nat -> list (list Z) -> list Z * list Q.

Variable self : SoundStorm.

(** The oracle answers with one id below 1025 (the argmax over the 1025
    logits of a position) and one score in [0, 1] (one minus a softmax
    probability) per generated position.  Scores that are not numbers,
    which the softmax yields only when every logit of a position has been
    filtered out, are outside the model. *)
Definition model_ok (n : nat) : Prop :=
  forall l i inp,
    length (fst (model_step l i inp)) = n /\
    length (snd (model_step l i inp)) = n /\
    Forall (fun id => 0 <= id < 1025) (fst (model_step l i inp)) /\
    Forall (fun s => (0 <= s)%Q /\ (s <= 1)%Q) (snd (model_step l i inp)).

(** The body of the inner loop, lines 328-355. *)
Definition decode_step (prompt : list (list Z)) (rvq_layer i : nat)
    (mask_num_tokens : Z) (st : GenState) : result GenState :=
  inp <- cat_time prompt (gs_seq st) ;;
  let sampled_ids := fst (model_step rvq_layer i inp) in
  let scores := snd (model_step rvq_layer i inp) in
  let mask_l := nth rvq_layer (gs_mask st) [] in
  let seq1 :=
    set_row rvq_layer
      (where_ mask_l sampled_ids (nth rvq_layer (gs_seq st) [])) (gs_seq st) in
  if mask_num_tokens =? 0 then
    Ok {| gs_seq := seq1; gs_mask := gs_mask st |}
  else
    let scores' := masked_fill scores (map negb mask_l) neg_finfo_max in
    mask_indices <- topk scores' mask_num_tokens ;;
    let mask1 :=
      set_row rvq_layer (scatter_true (length scores') mask_indices) (gs_mask st) in
    let seq2 :=
      set_row rvq_layer
        (masked_fill (nth rvq_layer seq1 []) (nth rvq_layer mask1 []) (mask_token_id self))
        seq1 in
    Ok {| gs_seq := seq2; gs_mask := mask1 |}.

Definition log_of (prompt : list (list Z)) (rvq_layer i : nat)
    (mask_num_tokens : Z) (st st' : GenState) : StepLog :=
  {| log_layer := rvq_layer;
     log_step := i;
     log_target := mask_num_tokens;
     log_input := map (fun ab => fst ab ++ snd ab) (combine prompt (gs_seq st));
     log_sampled :=
       fst (model_step rvq_layer i
              (map (fun ab => fst ab ++ snd ab) (combine prompt (gs_seq st))));
     log_before := st;
     log_after := st' |}.

(** The inner loop over [all_mask_num_tokens.tolist()]; the second
    component lists the steps taken, in order. *)
Fixpoint decode_level (prompt : list (list Z)) (rvq_layer i : nat)
    (targets : list Z) (st : GenState) : result (GenState * list StepLog) :=
  match targets with
  | [] => Ok (st, [])
  | mask_num_tokens :: rest =>
      st1 <- decode_step prompt rvq_layer i mask_num_tokens st ;;
      r <- decode_level prompt rvq_layer (S i) rest st1 ;;
      Ok (fst r, log_of prompt rvq_layer i mask_num_tokens st st1 :: snd r)
  end.

(** The outer loop, over the levels in [layers]; [sched] computes
    [all_mask_num_tokens] from [iter_steps] and [seq_len]. *)
Fixpoint decode_levels (sched : nat -> nat -> list Z) (prompt : list (list Z))
    (seq_len : nat) (layers : list nat) (st : GenState)
    : result (GenState * list StepLog) :=
  match layers with
  | [] => Ok (st, [])
  | rvq_layer :: rest =>
      match nth_error (steps self) rvq_layer with
      | None => Raise IndexError
      | Some iter_steps =>
          r1 <- decode_level prompt rvq_layer 0 (sched iter_steps seq_len) st ;;
          r2 <- decode_levels sched prompt seq_len rest (fst r1) ;;
          Ok (fst r2, snd r1 ++ snd r2)
      end
  end.

(** [int(conds.size(1) * 1.5)]. *)
Definition num_latents_input (conds_len : nat) : nat := (conds_len * 3 / 2)%nat.

(** [min(int(num_latents_input * 0.5), 225)]. *)
Definition num_prompt (conds_len : nat) : nat :=
  Nat.min (num_latents_input conds_len / 2) 225.

Definition num_latents_to_generate (conds_len : nat) : nat :=
  (num_latents_input conds_len - num_prompt conds_len)%nat.

(** [codes[:, :num_prompt, :]]. *)
Definition prompt_of (conds_len : nat) (codes : list (list Z)) : list (list Z) :=
  map (firstn (num_prompt conds_len)) codes.

(** [seq] and [mask] as lines 311-314 create them. *)
Definition initial_state (seq_len : nat) : GenState :=
  {| gs_seq := repeat (repeat (mask_token_id self) seq_len) 8;
     gs_mask := repeat (repeat true seq_len) 8 |}.

(** The state after the levels in [layers] and the steps taken. *)
Definition decode_with (sched : nat -> nat -> list Z) (conds_len : nat)
    (codes : list (list Z)) (layers : list nat) : result (GenState * list StepLog) :=
  decode_levels sched (prompt_of conds_len codes)
    (num_latents_to_generate conds_len) layers
    (initial_state (num_latents_to_generate conds_len)).

(** [generate] with the schedule as a parameter. *)
Definition generate_with (sched : nat -> nat -> list Z) (conds_len : nat)
    (codes : list (list Z)) : result (list (list Z)) :=
  r <- decode_with sched conds_len codes (seq 0 8) ;;
  cat_time (prompt_of conds_len codes) (gs_seq (fst r)).

(** [generate(conds, codes)] for [conds] of length [conds_len]. *)
Definition generate (conds_len : nat) (codes : list (list Z)) : result (list (list Z)) :=
  generate_with all_mask_num_tokens conds_len codes.

(** The run of [generate] up to the end of the levels in [layers]. *)
Definition decode (conds_len : nat) (codes : list (list Z)) (layers : list nat)
    : result (GenState * list StepLog) :=
  decode_with all_mask_num_tokens conds_len codes layers.

End Generate.

(** ** The training masker *)

(** [a < b] on float tensors. *)
Definition Rltb (a b : R) : bool := if Rlt_dec a b then true else false.

(** [ceil] of a real. *)
Definition Rceil (x : R) : Z := - Int_part (- x).

(** The tensor the caller passes to [forward] is one shared storage:
    [rearrange(codes, 'b n q -> q b n')] is a view of it and iterating over
    that view yields views, one per level.  A [tensor_ref] is either such a
    view, read and written through the storage, or a tensor of its own. *)
Inductive tensor_ref : Type :=
| View (i : nat)
| Fresh (data : list (list Z)).

Definition deref (store : list (list (list Z))) (r : tensor_ref) : list (list Z) :=
  match r with
  | View i => nth i store []
  | Fresh data => data
  end.

Section Training.

Variable self : SoundStorm.

(** The row of [mask] for one batch item (lines 179-184): [rand_time] is
    the item's draw in [rand_times], [randperm] its row of
    [batched_randperm]. *)
Definition level_mask_row (seq_len t : nat) (rand_time : R) (randperm : list nat)
    : list bool :=
  let rand_prob := cosine_schedule rand_time in
  let num_tokens_mask := Rmax (rand_prob * INR (seq_len - t)) 1 in
  let mask := map (fun rk => Rltb (INR rk) num_tokens_mask) randperm in
  let prompt_mask := repeat false t in
  prompt_mask ++ mask.

(** [_level_mask(code, seq_len, b, t, device)]; the two random tensors are
    arguments, one entry per batch item. *)
Definition _level_mask (code : list (list Z)) (seq_len t : nat)
    (rand_times : list R) (batched_randperm : list (list nat))
    : list (list Z) * list (list Z) :=
  let mask :=
    map (fun ur => level_mask_row seq_len t (fst ur) (snd ur))
        (combine rand_times batched_randperm) in
  let labels :=
    map (fun mc => where_else (fst mc) (snd mc) (ignore_index self))
        (combine mask code) in
  let code' :=
    map (fun mc => masked_fill (snd mc) (fst mc) (mask_token_id self))
        (combine mask code) in
  (code', labels).

(** [_fine_mask(code, t)] for [code] the view of level [i]:
    [code[:, t:] = self.mask_upper_level] writes through the view. *)
Definition _fine_mask (store : list (list (list Z))) (i t : nat)
    : list (list (list Z)) * tensor_ref :=
  (set_row i (map (assign_from t (mask_upper_level self)) (nth i store [])) store,
   View i).

(** The loop of [_masking] over the levels. *)
Fixpoint masking_loop (levels : list nat) (q t seq_len : nat)
    (rand_times : list R) (batched_randperm : list (list nat))
    (store : list (list (list Z))) (masked_codes : list tensor_ref)
    (label : option (list (list Z)))
    : list (list (list Z)) * list tensor_ref * option (list (list Z)) :=
  match levels with
  | [] => (store, masked_codes, label)
  | i :: rest =>
      if Nat.eqb q i then
        let cl := _level_mask (deref store (View i)) seq_len t rand_times batched_randperm in
        masking_loop rest q t seq_len rand_times batched_randperm store
          (masked_codes ++ [Fresh (fst cl)]) (Some (snd cl))
      else if Nat.ltb q i then
        let sr := _fine_mask store i t in
        masking_loop rest q t seq_len rand_times batched_randperm (fst sr)
          (masked_codes ++ [snd sr]) label
      else
        masking_loop rest q t seq_len rand_times batched_randperm store
          (masked_codes ++ [View i]) label
  end.

(** [_masking(codes, q, t)].  The result carries the storage of [codes]
    as the call leaves it.  [label] is unbound when no level is [q]. *)
Definition _masking (codes : list (list (list Z))) (q t : nat)
    (rand_times : list R) (batched_randperm : list (list nat))
    : result (list tensor_ref * list (list Z) * list (list (list Z))) :=
  let seq_len := length (hd [] (hd [] codes)) in
  let r := masking_loop (seq 0 (length codes)) q t seq_len
             rand_times batched_randperm codes [] None in
  match snd r with
  | None => Raise UnboundLocalError
  | Some label => Ok (snd (fst r), label, fst (fst r))
  end.

(** Lines 220-226 of [forward]: [q] and [t] are the two [random.randint]
    draws; [torch.stack] copies the masked levels.  Returns the stacked
    input, the labels and the storage of the caller's [codes]. *)
Definition forward_masking (codes : list (list (list Z))) (q t : nat)
    (rand_times : list R) (batched_randperm : list (list nat))
    : result (list (list (list Z)) * list (list Z) * list (list (list Z))) :=
  r <- _masking codes q t rand_times batched_randperm ;;
  Ok (map (deref (snd r)) (fst (fst r)), snd (fst r), snd r).

End Training.

(** ** Further code of the module *)


(** *** Sampling

    A row of logits after [top_k] has [None] for [-inf].  The Gumbel noise
    [-log(-log(u))] is an argument, one finite value per logit. *)

(** The floor [1e-10] of [gumbel_sample]. *)
Definition temperature_floor : Q := 1 # 10000000000.

(** Python's [max(a, b)]: [b] when it is larger, else [a]. *)
Definition py_max (a b : Q) : Q := if Qle_bool b a then a else b.

(** [a < b] on logits, [-inf] below every number. *)
Definition ext_lt (a b : option Q) : bool :=
  match a, b with
  | _, None => false
  | None, Some _ => true
  | Some x, Some y => negb (Qle_bool y x)
  end.

Fixpoint argmax_from (l : list (option Q)) (i best : nat) (bv : option Q) : nat :=
  match l with
  | [] => best
  | x :: l' =>
      if ext_lt bv x then argmax_from l' (S i) i x else argmax_from l' (S i) best bv
  end.

(** [Tensor.argmax(dim=-1)] on one row: the first index of a largest
    entry; an empty row raises. *)
Definition argmax (l : list (option Q)) : result nat :=
  match l with
  | [] => Raise IndexError
  | x :: l' => Ok (argmax_from l' 1 0 x)
  end.

(** [gumbel_sample(t, temperature)] on one row:
    [((t / max(temperature, 1e-10)) + gumbel_noise(t)).argmax(dim=-1)]. *)
Definition gumbel_sample (t : list (option Q)) (noise : list Q) (temperature : Q)
    : result nat :=
  argmax (map (fun tn : option Q * Q =>
                 option_map
                   (fun x : Q => (x / py_max temperature temperature_floor + snd tn)%Q)
                   (fst tn))
              (combine t noise)).

(** *** Alignment of the condition (lines 237-246 and 297-306)

    One batch item: [semb] lists the embedded semantic tokens, one vector
    each. *)

(** [Tensor.clamp(lo, hi)]. *)
Definition clamp (lo hi x : Z) : Z := Z.min (Z.max x lo) hi.

(** [torch.arange(0, acoustic_len) * 2 / 3] at index [i]. *)
Definition fetch_idx (i : nat) : Q := inject_Z (Z.of_nat i * 2) / 3.

(** [fetch_idx.to(torch.int64).clamp(0, semantic_len - 1)]; the conversion
    truncates, which on these non-negative values is the floor. *)
Definition fetch_idx_int (semantic_len i : nat) : Z :=
  clamp 0 (Z.of_nat semantic_len - 1) (Qfloor (fetch_idx i)).

(** [fetch_idx - fetch_idx_int]. *)
Definition fetch_idx_res (semantic_len i : nat) : Q :=
  fetch_idx i - inject_Z (fetch_idx_int semantic_len i).

(** [semb[:, idx]] for one index, with Python's negative indices. *)
Definition gather {A : Type} (rows : list A) (idx : Z) : result A :=
  let n := Z.of_nat (length rows) in
  let j := if idx <? 0 then idx + n else idx in
  if (0 <=? j) && (j <? n) then
    match nth_error rows (Z.to_nat j) with
    | Some r => Ok r
    | None => Raise IndexError
    end
  else Raise IndexError.

(** [a * (1 - res) + b * res] on two vectors. *)
Definition blend (a b : list Q) (res : Q) : list Q :=
  map (fun xy => fst xy * (1 - res) + snd xy * res)%Q (combine a b).

(** [sem_cond_upscale] before the projection. *)
Definition sem_cond_upscale (semb : list (list Q)) (acoustic_len : nat)
    : result (list (list Q)) :=
  let semantic_len := length semb in
  mapM (fun i =>
          a <- gather semb (fetch_idx_int semantic_len i) ;;
          b <- gather semb
                 (clamp 0 (Z.of_nat semantic_len - 1) (fetch_idx_int semantic_len i + 1)) ;;
          Ok (blend a b (fetch_idx_res semantic_len i)))
       (seq 0 acoustic_len).

(** *** The Gumbel noise (lines 41-47)

    Over the reals; [noise] is the uniform sample of [uniform_(0, 1)], a
    number of [[0, 1)]. *)

(** The default [eps=1e-10] of [log]. *)
Definition log_eps : R := (1 / 10 ^ 10)%R.

(** [log(t, eps)]: [torch.log(t + eps)]. *)
Definition log (t eps : R) : R := ln (t + eps).

(** [gumbel_noise], as a function of the uniform sample. *)
Definition gumbel_noise (noise : R) : R := (- log (- log noise log_eps) log_eps)%R.

(** The argument of the logarithm in [log(t, eps)] is positive. *)
Definition log_defined (t eps : R) : Prop := (0 < t + eps)%R.

(** *** Initialisation of the embedding tables (lines 161-173)

    An embedding table, a codebook and the array of cluster centres are
    lists of rows. *)

(** [table[:rows, :cols] = block] for a block of [rows] by [cols] entries:
    the slice has the shape of the block only when the table is large
    enough; otherwise the copy raises. *)
Definition assign_block (block table : list (list Q)) : result (list (list Q)) :=
  let rows := length block in
  let cols := length (hd [] block) in
  if (rows <=? length table)%nat && (cols <=? length (hd [] table))%nat then
    Ok (map (fun bt => fst bt ++ skipn cols (snd bt)) (combine block (firstn rows table))
        ++ skipn rows table)
  else Raise RuntimeError.

(** The loop of [_read_embedding_from_encodec] over the codebooks, paired
    with the tables [self.code_embeds[i]]. *)
Fixpoint read_codebooks (layers code_embeds : list (list (list Q)))
    : result (list (list (list Q))) :=
  match layers with
  | [] => Ok code_embeds
  | layer_weight :: layers' =>
      match code_embeds with
      | [] => Raise IndexError
      | table :: tables =>
          if (length layer_weight =? 1024)%nat then
            table' <- assign_block layer_weight table ;;
            tables' <- read_codebooks layers' tables ;;
            Ok (table' :: tables')
          else Raise AssertionError
      end
  end.

(** [_read_embedding_from_encodec(encodec)]: [layers] are the codebooks
    [encodec.quantizer.vq.layers], of which the first [n_q] are read. *)
Definition _read_embedding_from_encodec (self : SoundStorm)
    (code_embeds layers : list (list (list Q))) : result (list (list (list Q))) :=
  read_codebooks (firstn (n_q self) layers) code_embeds.

(** [ndarray.transpose()] and [Tensor.transpose(0, 1)] on a matrix. *)
Definition transpose (m : list (list Q)) : list (list Q) :=
  map (fun c => map (fun row => nth c row 0%Q) m) (seq 0 (length (hd [] m))).

(** [_read_embedding_from_hubert_kmeans(km_path)]: [cluster_centers] is
    [km_model.cluster_centers_] of the loaded model. *)
Definition _read_embedding_from_hubert_kmeans (semantic_embeds cluster_centers : list (list Q))
    : result (list (list Q)) :=
  let centers := transpose cluster_centers in
  let centers := transpose centers in
  assign_block centers semantic_embeds.

(** A matrix of [rows] rows of [cols] entries. *)
Definition matrix_shape (rows cols : nat) (m : list (list Q)) : Prop :=
  length m = rows /\ Forall (fun row => length row = cols) m.

(** The entry of a matrix at row [r] and column [c]. *)
Definition entry (m : list (list Q)) (r c : nat) : Q := nth c (nth r m []) 0%Q.

(** A codebook that the tables of width [D] can take: 1024 rows, not wider
    than the tables. *)
Definition codebook_fits (D : nat) (layer : list (list Q)) : Prop :=
  exists cols, matrix_shape 1024 cols layer /\ (cols <= D)%nat.

(** ** Predicates of the specification *)

(** Descending order of scored positions. *)
Definition desc (a b : Q * nat) : Prop := (fst b <= fst a)%Q.

(** A list of targets the inner loop can follow from a level with [m]
    flags set: each target is between 0 and the number of flags set when
    its step starts.  A step with target 0 leaves the flags as they are. *)
Fixpoint sched_ok (m : nat) (ts : list Z) : Prop :=
  match ts with
  | [] => True
  | t :: ts' =>
      0 <= t <= Z.of_nat m /\ sched_ok (if t =? 0 then m else Z.to_nat t) ts'
  end.

(** [z] is [x] rounded to a nearest integer, whatever the rule for ties. *)
Definition nearest (x : R) (z : Z) : Prop := (Rabs (IZR z - x) <= 1 / 2)%R.

(** The row of codes and the row of flags of the level being decoded:
    [m] flags are set, [c] positions hold [mid], a position that holds
    [mid] is flagged, and every other value is a code below 1025. *)
Definition row_inv (mid : Z) (N m c : nat) (seq_l : list Z) (mask_l : list bool) : Prop :=
  length seq_l = N /\ length mask_l = N /\
  count_true mask_l = m /\ count_eq mid seq_l = c /\
  (forall p, (p < N)%nat -> nth p seq_l 0 = mid -> nth p mask_l false = true) /\
  (forall p, (p < N)%nat -> nth p seq_l 0 = mid \/ 0 <= nth p seq_l 0 < 1025).

(** [seq] and [mask] have 8 level rows of [N] positions each. *)
Definition shape (N : nat) (st : GenState) : Prop :=
  length (gs_seq st) = 8%nat /\ length (gs_mask st) = 8%nat /\
  forall l, (l < 8)%nat ->
    length (nth l (gs_seq st) []) = N /\ length (nth l (gs_mask st) []) = N.

(** What holds of every step the decoder takes: it is a run of
    [decode_step] on states of the right shape, and the rows of its level
    satisfy [row_inv] before and after, with the step's target as the number
    of positions left at the mask id. *)
Definition step_facts (model_step : nat -> nat -> list (list Z) -> list Z * list Q)
    (self : SoundStorm) (N : nat) (prompt : list (list Z)) (e : StepLog) : Prop :=
  decode_step model_step self prompt (log_layer e) (log_step e) (log_target e)
    (log_before e) = Ok (log_after e) /\
  cat_time prompt (gs_seq (log_before e)) = Ok (log_input e) /\
  log_sampled e = fst (model_step (log_layer e) (log_step e) (log_input e)) /\
  (log_layer e < 8)%nat /\
  shape N (log_before e) /\
  exists m c,
    row_inv (mask_token_id self) N m c
      (nth (log_layer e) (gs_seq (log_before e)) [])
      (nth (log_layer e) (gs_mask (log_before e)) []) /\
    0 <= log_target e <= Z.of_nat m /\
    row_inv (mask_token_id self) N
      (if log_target e =? 0 then m else Z.to_nat (log_target e))
      (Z.to_nat (log_target e))
      (nth (log_layer e) (gs_seq (log_after e)) [])
      (nth (log_layer e) (gs_mask (log_after e)) []).

(** The step is step [log_step e] of the schedule of its level. *)
Definition step_scheduled (self : SoundStorm) (N : nat) (e : StepLog) : Prop :=
  exists iter_steps,
    nth_error (steps self) (log_layer e) = Some iter_steps /\
    nth_error (all_mask_num_tokens iter_steps N) (log_step e) = Some (log_target e).





(** The filtered row [fr] of one position: as long as [row], with exactly
    [k] finite entries, each equal to the logit at its index, and no
    dropped logit above a kept one. *)
Definition top_fraction_kept (k : Z) (row : list Q) (fr : list (option Q)) : Prop :=
  length fr = length row /\
  finite_logits fr = Z.to_nat k /\
  (forall j, (j < length row)%nat ->
     nth j fr None = Some (nth j row 0%Q) \/ nth j fr None = None) /\
  (forall i j, (i < length row)%nat -> (j < length row)%nat ->
     nth i fr None <> None -> nth j fr None = None ->
     (nth j row 0 <= nth i row 0)%Q).







(** A row of [generate]'s output: the prompt of the level, then [N]
    generated entries that satisfy [P]. *)
Definition output_row (conds_len : nat) (codes : list (list Z)) (P : Z -> Prop)
    (l : nat) (out : list (list Z)) : Prop :=
  exists tail,
    nth l out [] = firstn (num_prompt conds_len) (nth l codes []) ++ tail /\
    length tail = num_latents_to_generate conds_len /\
    Forall P tail.

(** ** Example inputs *)

Definition example_config (inference_steps : list nat) : Config :=
  {| acoustic_codebook_size := 1025;
     acoustic_num_quantizers := 8;
     inference_steps := inference_steps;
     cfg_filter_threshold := 9 # 10;
     cfg_temperature := 1 |}.

Definition example_model (inference_steps : list nat) : SoundStorm :=
  {| steps := inference_steps;
     filter_threshold := 9 # 10;
     temperature := 1;
     ignore_index := 1025;
     n_q := 8;
     mask_token_id := 1025;
     mask_upper_level := 1025 |}.

(** A sampler that answers code 7 with score 1/2 at both generated
    positions of a run with [conds] of length 2. *)
Definition example_step (rvq_layer i : nat) (input : list (list Z)) : list Z * list Q :=
  ([7; 7], [1 # 2; 1 # 2]%Q).

(** Eight levels of three frames. *)
Definition example_codes : list (list Z) := repeat [5; 5; 5] 8.

(** Two levels of one item of two frames, for the training masker. *)
Definition example_training_codes : list (list (list Z)) := [[[5; 6]]; [[7; 8]]].

(** A sampler that answers codes 7 and 8 and is less sure of the second. *)
Definition example_step2 (rvq_layer i : nat) (input : list (list Z)) : list Z * list Q :=
  ([7; 8], [1 # 2; 9 # 10]%Q).

(** The schedule of the worked run: two steps for level 0, one for the
    others, over two generated positions. *)
Definition example_sched (iter_steps seq_len : nat) : list Z :=
  if Nat.eqb iter_steps 2 then [1; 0] else [0].

(** Embedding tables of width 3 for the eight levels, nine codebooks of
    width 2 (one more than the model reads), and a set of cluster centres. *)
Definition example_code_embeds : list (list (list Q)) :=
  repeat (repeat [0; 0; 0]%Q 1028) 8.

Definition example_codebooks : list (list (list Q)) :=
  repeat (repeat [1; 2]%Q 1024) 9.

Definition example_short_codebook : list (list Q) := repeat [1; 2]%Q 1000.

Definition example_centers : list (list Q) := [[1; 2]; [3; 4]; [5; 6]]%Q.


Definition example_small_embeds : list (list Q) := repeat [0; 0; 0]%Q 2.

(** * Rows: lengths and entries *)

Lemma where_length {A : Type} (c : list bool) (x y : list A) :
  length c = length x -> length x = length y -> length (where_ c x y) = length x.
Proof.
  revert x y; induction c as [| b c IH]; intros [| a x] [| a' y]; simpl; try congruence.
  intros Hc Hx. f_equal. apply IH; congruence.
Qed.

Lemma where_nth {A : Type} (c : list bool) (x y : list A) (p : nat) (d : A) :
  length c = length x -> length x = length y ->
  nth p (where_ c x y) d = if nth p c false then nth p x d else nth p y d.
Proof.
  revert x y p; induction c as [| b c IH]; intros [| a x] [| a' y] p; simpl;
    try congruence.
  - destruct p; reflexivity.
  - intros Hc Hx. destruct p as [| p]; [reflexivity |].
    apply IH; congruence.
Qed.

Lemma masked_fill_length {A : Type} (x : list A) (m : list bool) (v : A) :
  length x = length m -> length (masked_fill x m v) = length x.
Proof.
  revert m; induction x as [| a x IH]; intros [| c m]; simpl; try congruence.
  intros H. f_equal. apply IH. congruence.
Qed.

Lemma masked_fill_nth {A : Type} (x : list A) (m : list bool) (v : A) (p : nat) (d : A) :
  length x = length m -> (p < length x)%nat ->
  nth p (masked_fill x m v) d = if nth p m false then v else nth p x d.
Proof.
  revert m p; induction x as [| a x IH]; intros [| c m] p; simpl; try congruence;
    try lia.
  intros H Hp. destruct p as [| p]; [reflexivity |].
  apply IH; [congruence | lia].
Qed.

Lemma where_else_nth {A : Type} (c : list bool) (x : list A) (v : A) (p : nat) (d : A) :
  length c = length x -> (p < length x)%nat ->
  nth p (where_else c x v) d = if nth p c false then nth p x d else v.
Proof.
  revert x p; induction c as [| b c IH]; intros [| a x] p; simpl; try congruence;
    try lia.
  intros H Hp. destruct p as [| p]; [reflexivity |].
  apply IH; [congruence | lia].
Qed.

Lemma set_row_length {A : Type} (l : nat) (row : A) (t : list A) :
  length (set_row l row t) = length t.
Proof.
  revert l; induction t as [| r t IH]; intros [| l]; simpl; auto.
Qed.

Lemma set_row_nth_same {A : Type} (l : nat) (row : A) (t : list A) (d : A) :
  (l < length t)%nat -> nth l (set_row l row t) d = row.
Proof.
  revert l; induction t as [| r t IH]; intros [| l]; simpl; try lia; auto.
  intros H. apply IH. lia.
Qed.

Lemma set_row_nth_other {A : Type} (l j : nat) (row : A) (t : list A) (d : A) :
  j <> l -> nth j (set_row l row t) d = nth j t d.
Proof.
  revert l j; induction t as [| r t IH]; intros [| l] [| j]; simpl; try congruence; auto.
Qed.

Lemma scatter_true_length (n : nat) (idx : list nat) :
  length (scatter_true n idx) = n.
Proof. unfold scatter_true. now rewrite length_map, length_seq. Qed.

Lemma scatter_true_nth (n : nat) (idx : list nat) (p : nat) :
  (p < n)%nat -> nth p (scatter_true n idx) false = true <-> In p idx.
Proof.
  intros Hp. unfold scatter_true.
  rewrite (nth_indep _ false (existsb (Nat.eqb 0) idx)) by now rewrite length_map, length_seq.
  rewrite (map_nth (fun q => existsb (Nat.eqb q) idx)), seq_nth by assumption. simpl.
  rewrite existsb_exists. split.
  - intros [x [Hx E]]. apply Nat.eqb_eq in E. now subst.
  - intros H. exists p. split; [assumption | apply Nat.eqb_refl].
Qed.

(** * Counting through positions *)

Lemma map_nth_seq {A : Type} (l : list A) (d : A) :
  map (fun p => nth p l d) (seq 0 (length l)) = l.
Proof.
  apply (nth_ext _ _ d d).
  - now rewrite length_map, length_seq.
  - intros n Hn. rewrite length_map, length_seq in Hn.
    rewrite (nth_indep _ d (nth 0 l d)) by now rewrite length_map, length_seq.
    rewrite (map_nth (fun p => nth p l d)), seq_nth by assumption. reflexivity.
Qed.

Lemma filter_map_length {A B : Type} (f : B -> bool) (g : A -> B) (l : list A) :
  length (filter f (map g l)) = length (filter (fun a => f (g a)) l).
Proof.
  induction l as [| a l IH]; simpl; [reflexivity |].
  destruct (f (g a)); simpl; congruence.
Qed.

Lemma count_positions {A : Type} (f : A -> bool) (l : list A) (d : A) :
  length (filter f l) = length (filter (fun p => f (nth p l d)) (seq 0 (length l))).
Proof.
  rewrite <- (map_nth_seq l d) at 1. apply filter_map_length.
Qed.

Lemma count_true_positions (m : list bool) :
  count_true m = length (filter (fun p => nth p m false) (seq 0 (length m))).
Proof. unfold count_true. apply (count_positions (fun b => b)). Qed.

Lemma count_eq_positions (v : Z) (row : list Z) :
  count_eq v row = length (filter (fun p => v =? nth p row 0) (seq 0 (length row))).
Proof. unfold count_eq. apply (count_positions (Z.eqb v)). Qed.

Lemma count_true_repeat (n : nat) : count_true (repeat true n) = n.
Proof.
  unfold count_true. induction n as [| n IH]; simpl; congruence.
Qed.

Lemma count_eq_repeat (v : Z) (n : nat) : count_eq v (repeat v n) = n.
Proof.
  unfold count_eq. induction n as [| n IH]; simpl; [reflexivity |].
  rewrite Z.eqb_refl. simpl. congruence.
Qed.

Lemma count_true_scatter (n : nat) (idx : list nat) :
  NoDup idx -> (forall i, In i idx -> (i < n)%nat) ->
  count_true (scatter_true n idx) = length idx.
Proof.
  intros Hnd Hlt. rewrite count_true_positions, scatter_true_length.
  apply Permutation_length, NoDup_Permutation.
  - apply NoDup_filter, seq_NoDup.
  - assumption.
  - intros p. rewrite filter_In, in_seq. split.
    + intros [[_ Hp] H]. now apply (scatter_true_nth n idx p).
    + intros H. pose proof (Hlt p H) as Hp. split; [lia |].
      now apply scatter_true_nth.
Qed.

(** * The contract of [topk] *)

Lemma insert_desc_perm (a : Q * nat) (l : list (Q * nat)) :
  Permutation (a :: l) (insert_desc a l).
Proof.
  induction l as [| b l IH]; simpl; [reflexivity |].
  destruct (Qle_bool (fst b) (fst a)); [reflexivity |].
  rewrite perm_swap. now constructor.
Qed.

Lemma insert_desc_sorted (a : Q * nat) (l : list (Q * nat)) :
  StronglySorted desc l -> StronglySorted desc (insert_desc a l).
Proof.
  induction l as [| b l IH]; intros Hs; simpl.
  - constructor; [constructor | constructor].
  - inversion Hs as [| b' l' Hl Hb]; subst.
    destruct (Qle_bool (fst b) (fst a)) eqn:E.
    + apply Qle_bool_iff in E. constructor; [assumption |].
      constructor; [exact E |].
      rewrite Forall_forall in Hb |- *. intros c Hc.
      unfold desc in *. eapply Qle_trans; [apply (Hb c Hc) | exact E].
    + assert (Hab : (fst a <= fst b)%Q).
      { destruct (Qlt_le_dec (fst a) (fst b)) as [H | H].
        - now apply Qlt_le_weak.
        - apply Qle_bool_iff in H. congruence. }
      constructor; [now apply IH |].
      rewrite Forall_forall in Hb |- *. intros c Hc.
      apply (Permutation_in _ (Permutation_sym (insert_desc_perm a l))) in Hc.
      destruct Hc as [<- | Hc]; [exact Hab | now apply Hb].
Qed.

Lemma ranked_perm (scores : list Q) :
  Permutation (combine scores (seq 0 (length scores))) (ranked scores).
Proof.
  unfold ranked. induction (combine scores (seq 0 (length scores))) as [| a l IH];
    simpl; [reflexivity |].
  rewrite <- insert_desc_perm. now constructor.
Qed.

Lemma ranked_sorted (scores : list Q) : StronglySorted desc (ranked scores).
Proof.
  unfold ranked. induction (combine scores (seq 0 (length scores))) as [| a l IH];
    simpl; [constructor | now apply insert_desc_sorted].
Qed.

Lemma combine_seq_snd {A : Type} (l : list A) (s : nat) :
  map snd (combine l (seq s (length l))) = seq s (length l).
Proof.
  revert s; induction l as [| a l IH]; intros s; simpl; [reflexivity |].
  f_equal. apply IH.
Qed.

Lemma combine_seq_in {A : Type} (l : list A) (d : A) (v : A) (i s : nat) :
  In (v, i) (combine l (seq s (length l))) ->
  (s <= i < s + length l)%nat /\ v = nth (i - s) l d.
Proof.
  revert s; induction l as [| a l IH]; intros s; simpl; [tauto |].
  intros [E | H].
  - inversion E; subst. split; [lia |]. now rewrite Nat.sub_diag.
  - apply IH in H. destruct H as [Hi E]. split; [lia |].
    replace (i - s)%nat with (S (i - S s)) by lia. exact E.
Qed.

Lemma combine_seq_mem {A : Type} (l : list A) (d : A) (i : nat) :
  (i < length l)%nat -> In (nth i l d, i) (combine l (seq 0 (length l))).
Proof.
  intros Hi.
  assert (E : (nth i l d, i) = nth i (combine l (seq 0 (length l))) (d, O)).
  { rewrite combine_nth by now rewrite length_seq. now rewrite seq_nth. }
  rewrite E. apply nth_In. rewrite length_combine, length_seq. lia.
Qed.

Lemma sorted_app_desc (l1 l2 : list (Q * nat)) :
  StronglySorted desc (l1 ++ l2) ->
  forall a b, In a l1 -> In b l2 -> desc a b.
Proof.
  induction l1 as [| c l1 IH]; simpl; intros Hs a b Ha Hb; [tauto |].
  inversion Hs as [| c' l' Hl Hc]; subst.
  destruct Ha as [<- | Ha].
  - rewrite Forall_forall in Hc. apply Hc. apply in_or_app. now right.
  - now apply IH.
Qed.

Lemma firstn_incl {A : Type} (k : nat) (l : list A) (a : A) :
  In a (firstn k l) -> In a l.
Proof.
  intros H. rewrite <- (firstn_skipn k l). apply in_or_app. now left.
Qed.

Lemma NoDup_firstn_of {A : Type} (k : nat) (l : list A) :
  NoDup l -> NoDup (firstn k l).
Proof.
  intros H. rewrite <- (firstn_skipn k l) in H. now apply NoDup_app_remove_r in H.
Qed.

Lemma topk_length (scores : list Q) (k : Z) (idx : list nat) :
  topk scores k = Ok idx -> length idx = Z.to_nat k.
Proof.
  unfold topk. destruct ((k <? 0) || (Z.of_nat (length scores) <? k)) eqn:E;
    [discriminate |].
  intros H; inversion H; subst; clear H.
  apply orb_false_iff in E. destruct E as [E1 E2].
  apply Z.ltb_ge in E1, E2.
  rewrite length_map, length_firstn.
  rewrite <- (Permutation_length (ranked_perm scores)), length_combine, length_seq.
  lia.
Qed.

Lemma topk_NoDup (scores : list Q) (k : Z) (idx : list nat) :
  topk scores k = Ok idx -> NoDup idx.
Proof.
  unfold topk. destruct ((k <? 0) || (Z.of_nat (length scores) <? k)); [discriminate |].
  intros H; inversion H; subst; clear H.
  rewrite <- firstn_map. apply NoDup_firstn_of.
  apply (Permutation_NoDup (l := seq 0 (length scores))); [| apply seq_NoDup].
  rewrite <- (combine_seq_snd scores 0). apply Permutation_map, ranked_perm.
Qed.

Lemma topk_bound (scores : list Q) (k : Z) (idx : list nat) (i : nat) :
  topk scores k = Ok idx -> In i idx -> (i < length scores)%nat.
Proof.
  unfold topk. destruct ((k <? 0) || (Z.of_nat (length scores) <? k)); [discriminate |].
  intros H; inversion H; subst; clear H. intros Hi.
  apply in_map_iff in Hi. destruct Hi as [[v j] [E Hin]]. simpl in E; subst j.
  apply firstn_incl in Hin.
  apply (Permutation_in _ (Permutation_sym (ranked_perm scores))) in Hin.
  apply (combine_seq_in scores 0%Q) in Hin. lia.
Qed.

Lemma topk_dominates (scores : list Q) (k : Z) (idx : list nat) (i j : nat) :
  topk scores k = Ok idx -> In i idx -> (j < length scores)%nat -> ~ In j idx ->
  (nth j scores 0 <= nth i scores 0)%Q.
Proof.
  unfold topk. destruct ((k <? 0) || (Z.of_nat (length scores) <? k)); [discriminate |].
  intros H; inversion H; subst; clear H. intros Hi Hj Hnj.
  apply in_map_iff in Hi. destruct Hi as [[v i'] [E Hin]]. simpl in E; subst i'.
  assert (Hv : v = nth i scores 0%Q).
  { apply firstn_incl in Hin.
    apply (Permutation_in _ (Permutation_sym (ranked_perm scores))) in Hin.
    apply (combine_seq_in scores 0%Q) in Hin. destruct Hin as [_ Hin].
    now rewrite Nat.sub_0_r in Hin. }
  subst v.
  pose proof (combine_seq_mem scores 0%Q j Hj) as Hjm.
  apply (Permutation_in _ (ranked_perm scores)) in Hjm.
  rewrite <- (firstn_skipn (Z.to_nat k) (ranked scores)) in Hjm.
  apply in_app_or in Hjm. destruct Hjm as [Hjm | Hjm].
  - exfalso. apply Hnj. apply in_map_iff. now exists (nth j scores 0%Q, j).
  - pose proof (ranked_sorted scores) as Hs.
    rewrite <- (firstn_skipn (Z.to_nat k) (ranked scores)) in Hs.
    exact (sorted_app_desc _ _ Hs _ _ Hin Hjm).
Qed.

Lemma topk_ok (scores : list Q) (k : Z) :
  0 <= k <= Z.of_nat (length scores) -> exists idx, topk scores k = Ok idx.
Proof.
  intros [H1 H2]. unfold topk.
  replace (k <? 0) with false by (symmetry; apply Z.ltb_ge; lia).
  replace (Z.of_nat (length scores) <? k) with false by (symmetry; apply Z.ltb_ge; lia).
  simpl. eauto.
Qed.

(** * The cosine schedule *)

Lemma Int_part_mono (x y : R) : (x <= y)%R -> Int_part x <= Int_part y.
Proof.
  intros H. destruct (base_Int_part x) as [Hx1 Hx2], (base_Int_part y) as [Hy1 Hy2].
  apply Z.lt_succ_r, lt_IZR. rewrite succ_IZR. lra.
Qed.

Lemma Int_part_range (x : R) (n : nat) :
  (0 <= x <= INR n)%R -> 0 <= Int_part x <= Z.of_nat n.
Proof.
  intros [H0 Hn]. destruct (base_Int_part x) as [H1 H2]. split.
  - apply Z.lt_succ_r, lt_IZR. rewrite succ_IZR. lra.
  - apply le_IZR. rewrite <- INR_IZR_INZ. lra.
Qed.

Lemma long_nonneg (x : R) : (0 <= x)%R -> long x = Int_part x.
Proof. intros H. unfold long. destruct (Rle_dec 0 x); [reflexivity | contradiction]. Qed.

Lemma long_0 : long 0 = 0.
Proof.
  rewrite long_nonneg by lra. symmetry. apply Int_part_spec. simpl. lra.
Qed.

Lemma all_mask_num_tokens_eq (iter_steps seq_len : nat) :
  all_mask_num_tokens iter_steps seq_len =
  map (fun j => long (cosine_schedule (INR (j + 1) / INR iter_steps) * INR seq_len))
      (seq 0 iter_steps).
Proof.
  unfold all_mask_num_tokens, linspace01.
  replace (iter_steps + 1 - 1)%nat with iter_steps by lia.
  rewrite Nat.add_1_r. cbn [seq map tl].
  rewrite <- seq_shift, !map_map. apply map_ext. intros j.
  now rewrite Nat.add_1_r.
Qed.

Lemma schedule_angle (iter_steps j : nat) :
  (j < iter_steps)%nat ->
  (0 <= INR (j + 1) / INR iter_steps * PI * (1 / 2) <= PI / 2)%R.
Proof.
  intros Hj. pose proof PI_RGT_0 as Hpi.
  assert (Hs : (0 < INR iter_steps)%R) by (apply lt_0_INR; lia).
  assert (Hle : (INR (j + 1) <= INR iter_steps)%R) by (apply le_INR; lia).
  assert (H0 : (0 <= INR (j + 1))%R) by apply pos_INR.
  assert (Hq : (0 <= INR (j + 1) / INR iter_steps <= 1)%R).
  { split.
    - apply Rmult_le_pos; [assumption | left; now apply Rinv_0_lt_compat].
    - apply (Rmult_le_reg_r (INR iter_steps)); [assumption |].
      unfold Rdiv. rewrite Rmult_assoc, Rinv_l by lra. lra. }
  split; nra.
Qed.

Lemma schedule_value_range (iter_steps seq_len j : nat) :
  (j < iter_steps)%nat ->
  (0 <= cosine_schedule (INR (j + 1) / INR iter_steps) * INR seq_len <= INR seq_len)%R.
Proof.
  intros Hj. unfold cosine_schedule.
  destruct (schedule_angle iter_steps j Hj) as [Ha Hb].
  pose proof PI_RGT_0 as Hpi.
  assert (Hc : (0 <= cos (INR (j + 1) / INR iter_steps * PI * (1 / 2)))%R)
    by (apply cos_ge_0; lra).
  destruct (COS_bound (INR (j + 1) / INR iter_steps * PI * (1 / 2))) as [_ Hc1].
  pose proof (pos_INR seq_len) as Hn. split; nra.
Qed.

Lemma schedule_value_mono (iter_steps seq_len j j' : nat) :
  (j <= j')%nat -> (j' < iter_steps)%nat ->
  (cosine_schedule (INR (j' + 1) / INR iter_steps) * INR seq_len
   <= cosine_schedule (INR (j + 1) / INR iter_steps) * INR seq_len)%R.
Proof.
  intros Hjj Hj'. unfold cosine_schedule.
  destruct (schedule_angle iter_steps j ltac:(lia)) as [Ha Hb].
  destruct (schedule_angle iter_steps j' Hj') as [Ha' Hb'].
  pose proof PI_RGT_0 as Hpi. pose proof (pos_INR seq_len) as Hn.
  apply Rmult_le_compat_r; [assumption |].
  apply cos_decr_1; try lra.
  assert (Hs : (0 < INR iter_steps)%R) by (apply lt_0_INR; lia).
  assert (Hle : (INR (j + 1) <= INR (j' + 1))%R) by (apply le_INR; lia).
  assert (Hq : (INR (j + 1) / INR iter_steps <= INR (j' + 1) / INR iter_steps)%R).
  { unfold Rdiv. apply Rmult_le_compat_r; [left; now apply Rinv_0_lt_compat | assumption]. }
  nra.
Qed.

Lemma schedule_last (iter_steps seq_len : nat) :
  long (cosine_schedule (INR (iter_steps + 1) / INR (S iter_steps)) * INR seq_len) = 0.
Proof.
  rewrite Nat.add_1_r. unfold cosine_schedule.
  replace (INR (S iter_steps) / INR (S iter_steps) * PI * (1 / 2))%R with (PI / 2)%R.
  - rewrite cos_PI2, Rmult_0_l. apply long_0.
  - assert (H : INR (S iter_steps) <> 0%R) by (apply not_0_INR; lia).
    field. exact H.
Qed.

Lemma all_mask_num_tokens_last (iter_steps seq_len : nat) :
  exists front, all_mask_num_tokens (S iter_steps) seq_len = front ++ [0].
Proof.
  rewrite all_mask_num_tokens_eq, seq_S, map_app. simpl.
  rewrite schedule_last. eauto.
Qed.


Lemma sched_ok_of_sorted (m : nat) (ts : list Z) :
  StronglySorted (fun a b => b <= a) ts ->
  Forall (fun t => 0 <= t <= Z.of_nat m) ts ->
  sched_ok m ts.
Proof.
  revert m; induction ts as [| t ts IH]; intros m Hs Hb; simpl; [exact I |].
  inversion Hs as [| t' ts' Hs' Ht]; subst.
  inversion Hb as [| t' ts' Hb0 Hb']; subst.
  split; [assumption |]. apply IH; [assumption |].
  rewrite Forall_forall in *. intros u Hu.
  specialize (Ht u Hu). specialize (Hb' u Hu).
  destruct (t =? 0) eqn:E; [assumption |]. lia.
Qed.

Lemma sorted_map_seq (f : nat -> Z) (s n : nat) :
  (forall j j', (s <= j)%nat -> (j <= j')%nat -> (j' < s + n)%nat -> f j' <= f j) ->
  StronglySorted (fun a b => b <= a) (map f (seq s n)).
Proof.
  revert s; induction n as [| n IH]; intros s H; simpl; constructor.
  - apply IH. intros j j' H1 H2 H3. apply H; lia.
  - rewrite Forall_forall. intros u Hu. apply in_map_iff in Hu.
    destruct Hu as [j' [<- Hj']]. apply in_seq in Hj'. apply H; lia.
Qed.

Lemma all_mask_num_tokens_ok (iter_steps seq_len : nat) :
  sched_ok seq_len (all_mask_num_tokens iter_steps seq_len).
Proof.
  rewrite all_mask_num_tokens_eq. apply sched_ok_of_sorted.
  - apply sorted_map_seq. intros j j' _ Hjj Hj'. simpl in Hj'.
    rewrite !long_nonneg by (apply schedule_value_range; lia).
    apply Int_part_mono, schedule_value_mono; lia.
  - rewrite Forall_forall. intros t Ht. apply in_map_iff in Ht.
    destruct Ht as [j [<- Hj]]. apply in_seq in Hj.
    rewrite long_nonneg by (apply schedule_value_range; lia).
    apply Int_part_range, schedule_value_range. lia.
Qed.


(** * One step on the rows of the level being decoded *)

Lemma count_true_le (m : list bool) : (count_true m <= length m)%nat.
Proof.
  unfold count_true. induction m as [| b m IH]; simpl; [lia |].
  destruct b; simpl; lia.
Qed.

Lemma filter_none {A : Type} (f : A -> bool) (l : list A) :
  (forall a, In a l -> f a = false) -> filter f l = [].
Proof.
  induction l as [| a l IH]; intros H; simpl; [reflexivity |].
  rewrite (H a) by now left. apply IH. intros b Hb. apply H. now right.
Qed.

Lemma negb_row_nth (m : list bool) (p : nat) :
  (p < length m)%nat -> nth p (map negb m) false = negb (nth p m false).
Proof.
  intros Hp. rewrite (nth_indep _ false (negb false)) by now rewrite length_map.
  apply (map_nth negb).
Qed.

Section RowStep.

Variables (mid : Z) (N : nat).
Variables (sampled : list Z) (scores : list Q).
Hypothesis Hmid : mid = 1025.
Hypothesis Hsl : length sampled = N.
Hypothesis Hcl : length scores = N.
Hypothesis Hsr : Forall (fun id => 0 <= id < 1025) sampled.
Hypothesis Hcr : Forall (fun s => (0 <= s)%Q /\ (s <= 1)%Q) scores.

Lemma fill_entry (m c : nat) (seq_l : list Z) (mask_l : list bool) (p : nat) :
  row_inv mid N m c seq_l mask_l -> (p < N)%nat ->
  0 <= nth p (where_ mask_l sampled seq_l) 0 < 1025.
Proof using Hsl Hsr.
  clear Hcr Hcl scores Hmid.
  intros (Hl1 & Hl2 & _ & _ & Hflag & Hval) Hp.
  rewrite where_nth by congruence.
  destruct (nth p mask_l false) eqn:E.
  - rewrite Forall_forall in Hsr. apply Hsr, nth_In. lia.
  - destruct (Hval p Hp) as [Hm | Hr]; [| exact Hr].
    apply (Hflag p Hp) in Hm. congruence.
Qed.

Lemma step_zero_row (m c : nat) (seq_l : list Z) (mask_l : list bool) :
  row_inv mid N m c seq_l mask_l ->
  row_inv mid N m 0 (where_ mask_l sampled seq_l) mask_l.
Proof using Hmid Hsl Hsr.
  clear Hcr Hcl scores.
  intros Hinv. pose proof Hinv as (Hl1 & Hl2 & Hm & _ & _ & _).
  assert (Hlen : length (where_ mask_l sampled seq_l) = N)
    by (rewrite where_length; congruence).
  assert (Hno : forall p, (p < N)%nat -> nth p (where_ mask_l sampled seq_l) 0 <> mid).
  { intros p Hp. pose proof (fill_entry m c seq_l mask_l p Hinv Hp). lia. }
  repeat split; try assumption.
  - rewrite count_eq_positions, filter_none; [reflexivity |].
    intros p Hp. apply in_seq in Hp. rewrite Hlen in Hp.
    apply Z.eqb_neq. intros E. apply (Hno p); [lia | now symmetry].
  - intros p Hp E. now apply Hno in E.
  - intros p Hp. right. now apply (fill_entry m c seq_l mask_l).
Qed.

Lemma filled_scores_nth (mask_l : list bool) (p : nat) :
  length mask_l = N -> (p < N)%nat ->
  nth p (masked_fill scores (map negb mask_l) neg_finfo_max) 0%Q =
  if nth p mask_l false then nth p scores 0%Q else neg_finfo_max.
Proof using Hcl.
  clear Hsr Hsl sampled Hcr Hmid.
  intros Hl Hp. rewrite masked_fill_nth by (rewrite ?length_map; lia).
  rewrite negb_row_nth by lia. now destruct (nth p mask_l false).
Qed.

Lemma remask_subset (m : nat) (mask_l : list bool) (t : Z) (idx : list nat) (i : nat) :
  length mask_l = N -> count_true mask_l = m -> 0 < t <= Z.of_nat m ->
  topk (masked_fill scores (map negb mask_l) neg_finfo_max) t = Ok idx ->
  In i idx -> nth i mask_l false = true.
Proof using Hcl Hcr.
  clear Hsr Hsl sampled Hmid.
  intros Hl Hm Ht Htop Hi.
  assert (Hfl : length (masked_fill scores (map negb mask_l) neg_finfo_max) = N)
    by (rewrite masked_fill_length; rewrite ?length_map; lia).
  pose proof (topk_bound _ _ _ _ Htop Hi) as HiN. rewrite Hfl in HiN.
  destruct (nth i mask_l false) eqn:Ei; [reflexivity | exfalso].
  assert (Hall : forall j, (j < N)%nat -> nth j mask_l false = true -> In j idx).
  { intros j Hj Ej. destruct (in_dec Nat.eq_dec j idx) as [Hin | Hnin]; [exact Hin |].
    exfalso.
    pose proof (topk_dominates _ _ _ i j Htop Hi ltac:(lia) Hnin) as Hd.
    rewrite !filled_scores_nth, Ei, Ej in Hd by assumption.
    rewrite Forall_forall in Hcr.
    assert (Hj0 : (0 <= nth j scores 0)%Q) by (apply Hcr, nth_In; lia).
    assert (Hneg : (neg_finfo_max < 0)%Q) by reflexivity.
    apply (Qlt_irrefl 0).
    eapply Qle_lt_trans; [exact Hj0 |]. eapply Qle_lt_trans; [exact Hd | exact Hneg]. }
  assert (Hincl : incl (filter (fun p => nth p mask_l false) (seq 0 (length mask_l)))
                       (remove Nat.eq_dec i idx)).
  { intros j Hj. apply filter_In in Hj. destruct Hj as [Hj Ej]. apply in_seq in Hj.
    apply in_in_remove; [congruence | apply Hall; [lia | exact Ej]]. }
  apply NoDup_incl_length in Hincl; [| apply NoDup_filter, seq_NoDup].
  rewrite <- count_true_positions, Hm in Hincl.
  pose proof (remove_length_lt Nat.eq_dec idx i Hi) as Hlt.
  rewrite (topk_length _ _ _ Htop) in Hlt. lia.
Qed.

Lemma step_topk_row (m c : nat) (seq_l : list Z) (mask_l : list bool) (t : Z) :
  row_inv mid N m c seq_l mask_l -> 0 < t <= Z.of_nat m ->
  exists idx,
    topk (masked_fill scores (map negb mask_l) neg_finfo_max) t = Ok idx /\
    row_inv mid N (Z.to_nat t) (Z.to_nat t)
      (masked_fill (where_ mask_l sampled seq_l) (scatter_true N idx) mid)
      (scatter_true N idx) /\
    (forall p, (p < N)%nat -> nth p (scatter_true N idx) false = true ->
               nth p mask_l false = true).
Proof using Hmid Hsl Hcl Hsr Hcr.
  intros Hinv Ht. pose proof Hinv as (Hl1 & Hl2 & Hm & _ & _ & _).
  assert (Hfl : length (masked_fill scores (map negb mask_l) neg_finfo_max) = N)
    by (rewrite masked_fill_length; rewrite ?length_map; lia).
  pose proof (count_true_le mask_l) as HmN. rewrite Hm, Hl2 in HmN.
  destruct (topk_ok (masked_fill scores (map negb mask_l) neg_finfo_max) t)
    as [idx Htop]; [rewrite Hfl; lia |].
  exists idx. split; [exact Htop |].
  assert (Hb : forall i, In i idx -> (i < N)%nat).
  { intros i Hi. rewrite <- Hfl. exact (topk_bound _ _ _ _ Htop Hi). }
  assert (Hwl : length (where_ mask_l sampled seq_l) = N)
    by (rewrite where_length; congruence).
  assert (Hct : count_true (scatter_true N idx) = Z.to_nat t).
  { rewrite count_true_scatter; [exact (topk_length _ _ _ Htop) | | exact Hb].
    exact (topk_NoDup _ _ _ Htop). }
  assert (Hent : forall p, (p < N)%nat ->
            nth p (masked_fill (where_ mask_l sampled seq_l) (scatter_true N idx) mid) 0 =
            if nth p (scatter_true N idx) false then mid
            else nth p (where_ mask_l sampled seq_l) 0).
  { intros p Hp. apply masked_fill_nth; rewrite ?scatter_true_length; lia. }
  assert (Hml : length (masked_fill (where_ mask_l sampled seq_l) (scatter_true N idx) mid) = N)
    by (rewrite masked_fill_length; rewrite ?scatter_true_length; lia).
  split; [repeat split |].
  - exact Hml.
  - apply scatter_true_length.
  - exact Hct.
  - rewrite <- Hct, count_eq_positions, count_true_positions, Hml, scatter_true_length.
    f_equal. apply filter_ext_in. intros p Hp. apply in_seq in Hp.
    rewrite Hent by lia.
    destruct (nth p (scatter_true N idx) false); [apply Z.eqb_refl |].
    apply Z.eqb_neq.
    pose proof (fill_entry m c seq_l mask_l p Hinv ltac:(lia)). lia.
  - intros p Hp. rewrite Hent by assumption.
    destruct (nth p (scatter_true N idx) false); [reflexivity |].
    pose proof (fill_entry m c seq_l mask_l p Hinv Hp). lia.
  - intros p Hp. rewrite Hent by assumption.
    destruct (nth p (scatter_true N idx) false); [now left | right].
    exact (fill_entry m c seq_l mask_l p Hinv Hp).
  - intros p Hp E. apply scatter_true_nth in E; [| exact Hp].
    exact (remask_subset m mask_l t idx p Hl2 Hm Ht Htop E).
Qed.

End RowStep.

(** * The decoder, step by step *)

Lemma last_cons {A : Type} (a d : A) (l : list A) : last (a :: l) d = last l a.
Proof.
  revert a d; induction l as [| b l IH]; intros a d; [reflexivity |].
  change (last (a :: b :: l) d) with (last (b :: l) d).
  now rewrite (IH b d), (IH b a).
Qed.

Lemma nth_repeat_lt {A : Type} (a d : A) (n p : nat) :
  (p < n)%nat -> nth p (repeat a n) d = a.
Proof.
  intros Hp. apply (repeat_spec n a). apply nth_In. now rewrite repeat_length.
Qed.

Lemma row_inv_initial (mid : Z) (N : nat) :
  row_inv mid N N N (repeat mid N) (repeat true N).
Proof.
  repeat split.
  - apply repeat_length.
  - apply repeat_length.
  - apply count_true_repeat.
  - apply count_eq_repeat.
  - intros p Hp _. now apply nth_repeat_lt.
  - intros p Hp. left. now apply nth_repeat_lt.
Qed.

Section Run.

Variable model_step : nat -> nat -> list (list Z) -> list Z * list Q.
Variable self : SoundStorm.
Variable N : nat.
Variable prompt : list (list Z).

Hypothesis Hmid : mask_token_id self = 1025.
Hypothesis Hok : model_ok model_step N.
Hypothesis Hprompt : length prompt = 8%nat.

Let mid := mask_token_id self.

Lemma cat_prompt_ok (st : GenState) :
  shape N st ->
  cat_time prompt (gs_seq st) =
  Ok (map (fun ab => fst ab ++ snd ab) (combine prompt (gs_seq st))).
Proof.
  intros (H1 & _ & _). unfold cat_time. now rewrite Hprompt, H1.
Qed.

Lemma decode_step_spec (l i : nat) (t : Z) (st : GenState) (m c : nat) :
  shape N st -> (l < 8)%nat ->
  row_inv mid N m c (nth l (gs_seq st) []) (nth l (gs_mask st) []) ->
  0 <= t <= Z.of_nat m ->
  exists st',
    decode_step model_step self prompt l i t st = Ok st' /\
    shape N st' /\
    (forall j, j <> l ->
       nth j (gs_seq st') [] = nth j (gs_seq st) [] /\
       nth j (gs_mask st') [] = nth j (gs_mask st) []) /\
    row_inv mid N (if t =? 0 then m else Z.to_nat t) (Z.to_nat t)
      (nth l (gs_seq st') []) (nth l (gs_mask st') []) /\
    (forall p, (p < N)%nat -> nth p (nth l (gs_mask st') []) false = true ->
               nth p (nth l (gs_mask st) []) false = true).
Proof.
  intros Hsh Hl Hinv Ht. pose proof Hsh as (Hs1 & Hs2 & Hrows).
  unfold decode_step. rewrite (cat_prompt_ok st Hsh). cbn [bind].
  set (inp := map (fun ab => fst ab ++ snd ab) (combine prompt (gs_seq st))).
  destruct (Hok l i inp) as (Hsl & Hcl & Hsr & Hcr).
  set (sampled := fst (model_step l i inp)) in *.
  set (scores := snd (model_step l i inp)) in *.
  set (mask_l := nth l (gs_mask st) []) in *.
  set (seq_l := nth l (gs_seq st) []) in *.
  destruct (t =? 0) eqn:Et.
  - apply Z.eqb_eq in Et. subst t.
    eexists. split; [reflexivity |]. unfold shape. cbn [gs_seq gs_mask].
    pose proof (step_zero_row mid N sampled Hmid Hsl Hsr m c seq_l mask_l Hinv) as Hz.
    split; [| split; [| split]].
    + split; [now rewrite set_row_length | split; [assumption |]].
      intros j Hj. destruct (Nat.eq_dec j l) as [-> | Hne].
      * rewrite set_row_nth_same by lia. split; [apply Hz | apply Hrows; lia].
      * rewrite set_row_nth_other by assumption. now apply Hrows.
    + intros j Hne. now rewrite set_row_nth_other by assumption.
    + rewrite set_row_nth_same by lia. exact Hz.
    + auto.
  - apply Z.eqb_neq in Et.
    destruct (step_topk_row mid N sampled scores Hmid Hsl Hcl Hsr Hcr m c seq_l mask_l t
                Hinv ltac:(lia)) as (idx & Htop & Hrow & Hsub).
    rewrite Htop. cbn [bind].
    assert (Hfl : length (masked_fill scores (map negb mask_l) neg_finfo_max) = N).
    { destruct Hinv as (_ & Hl2 & _). rewrite masked_fill_length; rewrite ?length_map;
        [assumption | unfold mask_l in *; lia]. }
    rewrite Hfl, !set_row_nth_same by lia.
    eexists. split; [reflexivity |]. unfold shape. cbn [gs_seq gs_mask].
    split; [| split; [| split]].
    + split; [now rewrite !set_row_length | split; [now rewrite set_row_length |]].
      intros j Hj. destruct (Nat.eq_dec j l) as [-> | Hne].
      * rewrite !set_row_nth_same by (rewrite ?set_row_length; lia).
        split; apply Hrow.
      * rewrite !set_row_nth_other by assumption. now apply Hrows.
    + intros j Hne. now rewrite !set_row_nth_other by assumption.
    + rewrite !set_row_nth_same by (rewrite ?set_row_length; lia). exact Hrow.
    + rewrite set_row_nth_same by lia. exact Hsub.
Qed.

Lemma decode_level_spec (l : nat) (Hl : (l < 8)%nat) :
  forall (ts : list Z) (i : nat) (st : GenState) (m c : nat),
    shape N st ->
    row_inv mid N m c (nth l (gs_seq st) []) (nth l (gs_mask st) []) ->
    sched_ok m ts ->
    exists st' tr,
      decode_level model_step self prompt l i ts st = Ok (st', tr) /\
      shape N st' /\
      (forall j, j <> l ->
         nth j (gs_seq st') [] = nth j (gs_seq st) [] /\
         nth j (gs_mask st') [] = nth j (gs_mask st) []) /\
      (exists m', row_inv mid N m' (Z.to_nat (last ts (Z.of_nat c)))
                    (nth l (gs_seq st') []) (nth l (gs_mask st') [])) /\
      Forall (fun e => step_facts model_step self N prompt e /\
                       log_layer e = l /\ (i <= log_step e)%nat /\
                       nth_error ts (log_step e - i) = Some (log_target e)) tr.
Proof.
  induction ts as [| t ts IH]; intros i st m c Hsh Hinv Hs.
  - exists st, []. simpl. rewrite Nat2Z.id.
    split; [reflexivity |]. split; [assumption |]. split; [auto |]. split; eauto.
  - destruct Hs as [Ht Hs].
    destruct (decode_step_spec l i t st m c Hsh Hl Hinv Ht)
      as (st1 & Hstep & Hsh1 & Hfr1 & Hrow1 & _).
    destruct (IH (S i) st1 _ _ Hsh1 Hrow1 Hs) as (st2 & tr & Hrun & Hsh2 & Hfr2 & Hrow2 & Hall).
    exists st2, (log_of model_step prompt l i t st st1 :: tr).
    cbn [decode_level]. rewrite Hstep. cbn [bind]. rewrite Hrun. cbn [bind fst snd].
    split; [reflexivity |]. split; [assumption |]. split; [| split].
    + intros j Hj. destruct (Hfr1 j Hj) as [E1 E2], (Hfr2 j Hj) as [E3 E4].
      split; congruence.
    + rewrite last_cons. rewrite Z2Nat.id in Hrow2 by lia. exact Hrow2.
    + constructor.
      * unfold step_facts, log_of.
        cbn [log_layer log_step log_target log_input log_sampled log_before log_after].
        rewrite Nat.sub_diag. split; [| split; [reflexivity | split; [lia | reflexivity]]].
        split; [exact Hstep |]. split; [now apply cat_prompt_ok |].
        split; [reflexivity |]. split; [exact Hl |]. split; [exact Hsh |].
        exists m, c. split; [exact Hinv |]. split; [exact Ht | exact Hrow1].
      * rewrite Forall_forall in Hall |- *. intros e He.
        destruct (Hall e He) as (Hf & Hlay & Hi & Hnth).
        split; [exact Hf |]. split; [exact Hlay |]. split; [lia |].
        replace (log_step e - i)%nat with (S (log_step e - S i)) by lia. exact Hnth.
Qed.

End Run.

(** * The decoder, level by level *)

Lemma level_final_count (iter_steps N : nat) :
  Z.to_nat (last (all_mask_num_tokens iter_steps N) (Z.of_nat N)) =
  if Nat.eqb iter_steps 0 then N else 0%nat.
Proof.
  destruct iter_steps as [| S'].
  - rewrite all_mask_num_tokens_eq. simpl. apply Nat2Z.id.
  - destruct (all_mask_num_tokens_last S' N) as [front E].
    rewrite E, last_last. reflexivity.
Qed.

Lemma count_eq_zero_nth (v : Z) (row : list Z) (p : nat) :
  count_eq v row = 0%nat -> (p < length row)%nat -> nth p row 0 <> v.
Proof.
  unfold count_eq. intros Hc Hp E.
  assert (Hin : In (nth p row 0) (filter (Z.eqb v) row)).
  { apply filter_In. split; [now apply nth_In | rewrite E; apply Z.eqb_refl]. }
  destruct (filter (Z.eqb v) row); [contradiction | discriminate].
Qed.

Section Levels.

Variable model_step : nat -> nat -> list (list Z) -> list Z * list Q.
Variable self : SoundStorm.
Variable N : nat.
Variable prompt : list (list Z).

Hypothesis Hmid : mask_token_id self = 1025.
Hypothesis Hok : model_ok model_step N.
Hypothesis Hprompt : length prompt = 8%nat.

Let mid := mask_token_id self.

Lemma decode_levels_spec :
  forall (layers : list nat) (st : GenState),
    NoDup layers ->
    (forall l, In l layers -> (l < 8)%nat /\ (l < length (steps self))%nat) ->
    shape N st ->
    (forall l, In l layers ->
       row_inv mid N N N (nth l (gs_seq st) []) (nth l (gs_mask st) [])) ->
    exists st' tr,
      decode_levels model_step self all_mask_num_tokens prompt N layers st
        = Ok (st', tr) /\
      shape N st' /\
      (forall j, ~ In j layers ->
         nth j (gs_seq st') [] = nth j (gs_seq st) [] /\
         nth j (gs_mask st') [] = nth j (gs_mask st) []) /\
      (forall l iter_steps, In l layers ->
         nth_error (steps self) l = Some iter_steps ->
         exists m', row_inv mid N m' (if Nat.eqb iter_steps 0 then N else 0%nat)
                      (nth l (gs_seq st') []) (nth l (gs_mask st') [])) /\
      Forall (fun e => step_facts model_step self N prompt e /\
                       step_scheduled self N e) tr.
Proof.
  induction layers as [| l rest IH]; intros st Hnd Hin Hsh Hini.
  - exists st, []. simpl. split; [reflexivity |]. split; [assumption |].
    split; [auto |]. split; [intros l S' [] | constructor].
  - inversion Hnd as [| l' rest' Hnotin Hnd']; subst.
    destruct (Hin l (or_introl eq_refl)) as [Hl8 Hls].
    destruct (nth_error (steps self) l) as [iter_steps |] eqn:Esteps;
      [| apply nth_error_None in Esteps; lia].
    destruct (decode_level_spec model_step self N prompt Hmid Hok Hprompt l Hl8
                (all_mask_num_tokens iter_steps N) 0%nat st N N Hsh
                (Hini l (or_introl eq_refl)) (all_mask_num_tokens_ok iter_steps N))
      as (st1 & tr1 & Hrun1 & Hsh1 & Hfr1 & [m1 Hrow1] & Hall1).
    destruct (IH st1 Hnd') as (st2 & tr2 & Hrun2 & Hsh2 & Hfr2 & Hrow2 & Hall2).
    { intros j Hj. apply Hin. now right. }
    { exact Hsh1. }
    { intros j Hj. assert (Hne : j <> l) by (intros ->; contradiction).
      destruct (Hfr1 j Hne) as [E1 E2]. rewrite E1, E2. apply Hini. now right. }
    exists st2, (tr1 ++ tr2). cbn [decode_levels]. rewrite Esteps, Hrun1. cbn [bind fst snd].
    rewrite Hrun2. cbn [bind fst snd].
    split; [reflexivity |]. split; [assumption |]. split; [| split].
    + intros j Hj. assert (Hne : j <> l) by (intros ->; apply Hj; now left).
      assert (Hnr : ~ In j rest) by (intros H; apply Hj; now right).
      destruct (Hfr1 j Hne) as [E1 E2], (Hfr2 j Hnr) as [E3 E4]. split; congruence.
    + intros j S' [<- | Hj] HS'.
      * destruct (Hfr2 l Hnotin) as [E3 E4]. rewrite E3, E4.
        assert (S' = iter_steps) by congruence. subst S'.
        exists m1. rewrite <- level_final_count. exact Hrow1.
      * now apply Hrow2.
    + apply Forall_app. split; [| exact Hall2].
      rewrite Forall_forall in Hall1 |- *. intros e He.
      destruct (Hall1 e He) as (Hf & Hlay & _ & Hnth). split; [exact Hf |].
      exists iter_steps. rewrite Hlay, Nat.sub_0_r in *. now split.
Qed.


Lemma decode_levels_ext (sched1 sched2 : nat -> nat -> list Z) (layers : list nat) :
  (forall l iter_steps, In l layers -> nth_error (steps self) l = Some iter_steps ->
     sched1 iter_steps N = sched2 iter_steps N) ->
  forall st,
    decode_levels model_step self sched1 prompt N layers st =
    decode_levels model_step self sched2 prompt N layers st.
Proof.
  clear Hmid Hok Hprompt mid.
  induction layers as [| l rest IH]; intros H st; [reflexivity |].
  cbn [decode_levels].
  destruct (nth_error (steps self) l) as [S' |] eqn:E; [| reflexivity].
  rewrite (H l S' (or_introl eq_refl) E).
  destruct (decode_level model_step self prompt l 0 (sched2 S' N) st) as [r |];
    [| reflexivity].
  cbn [bind]. rewrite IH; [reflexivity |].
  intros j S'' Hj. apply H. now right.
Qed.

End Levels.

(** * A whole run *)

Lemma init_fields (config : Config) (self : SoundStorm) :
  init config = Ok self ->
  mask_token_id self = 1025 /\ mask_upper_level self = 1025 /\
  ignore_index self = 1025 /\ steps self = inference_steps config.
Proof.
  unfold init. destruct (acoustic_codebook_size config =? 1025) eqn:E; [| discriminate].
  apply Z.eqb_eq in E. intros H. inversion H; subst; clear H. cbn. auto.
Qed.

Lemma initial_shape (self : SoundStorm) (N : nat) : shape N (initial_state self N).
Proof.
  unfold shape, initial_state. cbn [gs_seq gs_mask]. rewrite !repeat_length.
  split; [reflexivity | split; [reflexivity |]].
  intros l Hl. rewrite !nth_repeat_lt by assumption. now rewrite !repeat_length.
Qed.

Lemma initial_rows (self : SoundStorm) (N l : nat) :
  (l < 8)%nat ->
  row_inv (mask_token_id self) N N N
    (nth l (gs_seq (initial_state self N)) [])
    (nth l (gs_mask (initial_state self N)) []).
Proof.
  intros Hl. unfold initial_state. cbn [gs_seq gs_mask].
  rewrite !nth_repeat_lt by assumption. apply row_inv_initial.
Qed.

Lemma prompt_of_length (conds_len : nat) (codes : list (list Z)) :
  length (prompt_of conds_len codes) = length codes.
Proof. unfold prompt_of. apply length_map. Qed.

Lemma decode_spec (model_step : nat -> nat -> list (list Z) -> list Z * list Q)
    (self : SoundStorm) (conds_len : nat) (codes : list (list Z)) (layers : list nat) :
  mask_token_id self = 1025 ->
  model_ok model_step (num_latents_to_generate conds_len) ->
  length codes = 8%nat ->
  NoDup layers ->
  (forall l, In l layers -> (l < 8)%nat /\ (l < length (steps self))%nat) ->
  exists st tr,
    decode model_step self conds_len codes layers = Ok (st, tr) /\
    shape (num_latents_to_generate conds_len) st /\
    (forall l iter_steps, In l layers ->
       nth_error (steps self) l = Some iter_steps ->
       exists m', row_inv (mask_token_id self) (num_latents_to_generate conds_len) m'
                    (if Nat.eqb iter_steps 0 then num_latents_to_generate conds_len else 0%nat)
                    (nth l (gs_seq st) []) (nth l (gs_mask st) [])) /\
    Forall (fun e =>
              step_facts model_step self (num_latents_to_generate conds_len)
                (prompt_of conds_len codes) e /\
              step_scheduled self (num_latents_to_generate conds_len) e) tr.
Proof.
  intros Hmid Hok Hcodes Hnd Hin.
  destruct (decode_levels_spec model_step self (num_latents_to_generate conds_len)
              (prompt_of conds_len codes) Hmid Hok
              ltac:(now rewrite prompt_of_length) layers
              (initial_state self (num_latents_to_generate conds_len)) Hnd Hin
              (initial_shape self _))
    as (st & tr & Hrun & Hsh & _ & Hrows & Hall).
  { intros l Hl. apply initial_rows. now apply Hin. }
  exists st, tr. unfold decode, decode_with. auto.
Qed.

Lemma all_layers_ok (n : nat) (self : SoundStorm) :
  (n <= 8)%nat -> (n <= length (steps self))%nat ->
  forall l, In l (seq 0 n) -> (l < 8)%nat /\ (l < length (steps self))%nat.
Proof. intros H8 Hs l Hl. apply in_seq in Hl. lia. Qed.

Lemma all_mask_num_tokens_1 (N : nat) : all_mask_num_tokens 1 N = [0].
Proof.
  rewrite all_mask_num_tokens_eq. cbn [seq map]. f_equal.
  exact (schedule_last 0 N).
Qed.

(** * The claims about [generate] *)



Lemma example_step2_ok : model_ok example_step2 (num_latents_to_generate 2).
Proof.
  intros l i inp. cbn. repeat split; repeat constructor; try lia; discriminate.
Qed.













(** * Construction and the list of steps *)

Lemma generate_ok (model_step : nat -> nat -> list (list Z) -> list Z * list Q)
    (self : SoundStorm) (conds_len : nat) (codes : list (list Z)) :
  mask_token_id self = 1025 ->
  model_ok model_step (num_latents_to_generate conds_len) ->
  length codes = 8%nat ->
  (8 <= length (steps self))%nat ->
  exists st tr,
    decode model_step self conds_len codes (seq 0 8) = Ok (st, tr) /\
    shape (num_latents_to_generate conds_len) st /\
    generate model_step self conds_len codes =
    Ok (map (fun ab => fst ab ++ snd ab) (combine (prompt_of conds_len codes) (gs_seq st))).
Proof.
  intros Hmid Hok Hcodes Hsteps.
  destruct (decode_spec model_step self conds_len codes (seq 0 8) Hmid Hok Hcodes
              (seq_NoDup _ _) (all_layers_ok 8 self ltac:(lia) Hsteps))
    as (st & tr & Hrun & Hsh & _ & _).
  exists st, tr. split; [exact Hrun |]. split; [exact Hsh |].
  unfold generate, generate_with. unfold decode in Hrun. rewrite Hrun. cbn [bind fst].
  apply (cat_prompt_ok (num_latents_to_generate conds_len));
    [now rewrite prompt_of_length | exact Hsh].
Qed.





(** * [top_k] *)

Lemma mapM_Forall2 {A B : Type} (f : A -> result B) (P : A -> B -> Prop) (l : list A) :
  (forall a, In a l -> exists b, f a = Ok b /\ P a b) ->
  exists bs, mapM f l = Ok bs /\ Forall2 P l bs.
Proof.
  induction l as [| a l IH]; intros H.
  - exists []. split; [reflexivity | constructor].
  - destruct (H a (or_introl eq_refl)) as (b & Hb & Pb).
    destruct IH as (bs & Hbs & Pbs); [intros x Hx; apply H; now right |].
    exists (b :: bs). cbn [mapM]. rewrite Hb. cbn [bind]. rewrite Hbs. cbn [bind].
    split; [reflexivity | now constructor].
Qed.

Lemma kept_row_nth (row : list Q) (idx : list nat) (j : nat) :
  (j < length row)%nat ->
  nth j (map (fun j => if existsb (Nat.eqb j) idx then Some (nth j row 0%Q) else None)
             (seq 0 (length row))) None =
  if existsb (Nat.eqb j) idx then Some (nth j row 0%Q) else None.
Proof.
  intros Hj.
  rewrite (nth_indep _ None
             ((fun j => if existsb (Nat.eqb j) idx then Some (nth j row 0%Q) else None) 0%nat))
    by now rewrite length_map, length_seq.
  rewrite (map_nth (fun j => if existsb (Nat.eqb j) idx then Some (nth j row 0%Q) else None)).
  now rewrite seq_nth.
Qed.

Lemma existsb_eqb_in (j : nat) (idx : list nat) :
  existsb (Nat.eqb j) idx = true <-> In j idx.
Proof.
  rewrite existsb_exists. split.
  - intros [x [Hx E]]. apply Nat.eqb_eq in E. now subst.
  - intros H. exists j. split; [assumption | apply Nat.eqb_refl].
Qed.

Lemma top_k_row_spec (k : Z) (row : list Q) :
  0 <= k <= Z.of_nat (length row) ->
  exists fr, top_k_row k row = Ok fr /\ top_fraction_kept k row fr.
Proof.
  intros Hk. destruct (topk_ok row k Hk) as [idx Htop].
  unfold top_k_row. rewrite Htop. cbn [bind]. eexists. split; [reflexivity |].
  split; [| split; [| split]].
  - now rewrite length_map, length_seq.
  - unfold finite_logits. rewrite filter_map_length.
    rewrite <- (topk_length _ _ _ Htop).
    rewrite <- (count_true_scatter (length row) idx (topk_NoDup _ _ _ Htop)
                  (fun i Hi => topk_bound _ _ _ i Htop Hi)).
    unfold count_true, scatter_true. rewrite filter_map_length.
    f_equal. apply filter_ext. intros j. now destruct (existsb (Nat.eqb j) idx).
  - intros j Hj. rewrite kept_row_nth by assumption.
    destruct (existsb (Nat.eqb j) idx); auto.
  - intros i j Hi Hj. rewrite !kept_row_nth by assumption.
    destruct (existsb (Nat.eqb i) idx) eqn:Ei; [| congruence].
    destruct (existsb (Nat.eqb j) idx) eqn:Ej; [discriminate |].
    intros _ _. apply existsb_eqb_in in Ei.
    apply (topk_dominates row k idx i j Htop Ei Hj).
    intros Hin. apply existsb_eqb_in in Hin. congruence.
Qed.


Lemma top_k_count_positive (thres : Q) (V : nat) :
  (thres < 1)%Q -> (1 <= V)%nat ->
  1 <= Qceiling ((1 - thres) * inject_Z (Z.of_nat V)).
Proof.
  intros H1 HV.
  assert (Hpos : (0 < (1 - thres) * inject_Z (Z.of_nat V))%Q).
  { apply Qmult_lt_0_compat.
    - unfold Qminus. rewrite <- (Qplus_opp_r thres). apply Qplus_lt_l. exact H1.
    - change (inject_Z 0 < inject_Z (Z.of_nat V))%Q. rewrite <- Zlt_Qlt. lia. }
  pose proof (Qle_ceiling ((1 - thres) * inject_Z (Z.of_nat V))) as Hc.
  assert (Hlt : (inject_Z 0 < inject_Z (Qceiling ((1 - thres) * inject_Z (Z.of_nat V))))%Q)
    by (eapply Qlt_le_trans; [exact Hpos | exact Hc]).
  rewrite <- Zlt_Qlt in Hlt. lia.
Qed.





(** * The training masker: how many positions are masked *)

Lemma Rceil_spec (x : R) : (IZR (Rceil x) - 1 < x <= IZR (Rceil x))%R.
Proof.
  unfold Rceil. destruct (base_Int_part (- x)) as [H1 H2]. rewrite opp_IZR. lra.
Qed.

Lemma Rltb_rank (x : R) (rk : nat) :
  Rltb (INR rk) x = (Z.of_nat rk <? Rceil x).
Proof.
  destruct (Rceil_spec x) as [H1 H2]. unfold Rltb.
  destruct (Rlt_dec (INR rk) x) as [H | H]; symmetry.
  - apply Z.ltb_lt, lt_IZR. rewrite <- INR_IZR_INZ. lra.
  - apply Z.ltb_ge. apply Z.lt_succ_r, lt_IZR.
    rewrite succ_IZR, <- INR_IZR_INZ. lra.
Qed.

Lemma filter_all {A : Type} (f : A -> bool) (l : list A) :
  (forall a, In a l -> f a = true) -> filter f l = l.
Proof.
  induction l as [| a l IH]; intros H; simpl; [reflexivity |].
  rewrite (H a) by now left. f_equal. apply IH. intros b Hb. apply H. now right.
Qed.

Lemma count_below (c : Z) (n : nat) :
  0 <= c <= Z.of_nat n ->
  length (filter (fun rk => Z.of_nat rk <? c) (seq 0 n)) = Z.to_nat c.
Proof.
  intros Hc. replace n with (Z.to_nat c + (n - Z.to_nat c))%nat by lia.
  rewrite seq_app, filter_app, length_app.
  rewrite filter_all, filter_none, length_seq; [simpl; lia | |].
  - intros rk Hrk. apply in_seq in Hrk. apply Z.ltb_ge. lia.
  - intros rk Hrk. apply in_seq in Hrk. apply Z.ltb_lt. lia.
Qed.

Lemma Permutation_filter_length {A : Type} (f : A -> bool) (l l' : list A) :
  Permutation l l' -> length (filter f l) = length (filter f l').
Proof.
  induction 1 as [| x l l' _ IH | x y l | l l' l'' _ IH1 _ IH2]; simpl.
  - reflexivity.
  - destruct (f x); simpl; congruence.
  - destruct (f x), (f y); reflexivity.
  - congruence.
Qed.

Lemma level_mask_row_length (seq_len t : nat) (rand_time : R) (randperm : list nat) :
  length randperm = (seq_len - t)%nat -> (t <= seq_len)%nat ->
  length (level_mask_row seq_len t rand_time randperm) = seq_len.
Proof.
  intros H Ht. unfold level_mask_row. rewrite length_app, repeat_length, length_map. lia.
Qed.

Lemma level_mask_row_count (seq_len t : nat) (rand_time : R) (randperm : list nat) :
  (t < seq_len)%nat ->
  Permutation randperm (seq 0 (seq_len - t)) ->
  Z.of_nat (count_true (level_mask_row seq_len t rand_time randperm)) =
  Rceil (Rmax (cosine_schedule rand_time * INR (seq_len - t)) 1).
Proof.
  intros Ht Hperm. unfold level_mask_row, count_true.
  set (x := Rmax (cosine_schedule rand_time * INR (seq_len - t)) 1).
  rewrite filter_app, length_app, filter_none, filter_map_length
    by (intros b Hb; now apply repeat_spec in Hb).
  rewrite (Permutation_filter_length _ _ _ Hperm).
  rewrite (filter_ext _ _ (fun rk => Rltb_rank x rk)). simpl.
  destruct (Rceil_spec x) as [H1 H2].
  assert (Hx1 : (1 <= x)%R) by apply Rmax_r.
  assert (Hxn : (x <= INR (seq_len - t))%R).
  { unfold x. apply Rmax_lub.
    - destruct (COS_bound (rand_time * PI * (1 / 2))) as [_ Hc].
      unfold cosine_schedule. pose proof (pos_INR (seq_len - t)) as Hn. nra.
    - change 1%R with (INR 1). apply le_INR. lia. }
  assert (Hc0 : 0 < Rceil x) by (apply lt_IZR; lra).
  assert (Hcn : Rceil x <= Z.of_nat (seq_len - t)).
  { apply Z.lt_succ_r, lt_IZR. rewrite succ_IZR, <- INR_IZR_INZ. lra. }
  rewrite count_below by lia. lia.
Qed.

Lemma map_combine_nth {A B C : Type} (f : A * B -> C) (l1 : list A) (l2 : list B)
    (n : nat) (dA : A) (dB : B) (dC : C) :
  length l1 = length l2 -> (n < length l1)%nat ->
  nth n (map f (combine l1 l2)) dC = f (nth n l1 dA, nth n l2 dB).
Proof.
  intros Hl Hn.
  rewrite (nth_indep _ dC (f (dA, dB))) by (rewrite length_map, length_combine; lia).
  rewrite (map_nth f), combine_nth by assumption. reflexivity.
Qed.

Lemma level_mask_nth (self : SoundStorm) (code : list (list Z)) (seq_len t : nat)
    (rand_times : list R) (batched_randperm : list (list nat)) (b : nat) :
  (b < length code)%nat ->
  length rand_times = length code -> length batched_randperm = length code ->
  nth b (fst (_level_mask self code seq_len t rand_times batched_randperm)) [] =
    masked_fill (nth b code [])
      (level_mask_row seq_len t (nth b rand_times 0%R) (nth b batched_randperm []))
      (mask_token_id self) /\
  nth b (snd (_level_mask self code seq_len t rand_times batched_randperm)) [] =
    where_else
      (level_mask_row seq_len t (nth b rand_times 0%R) (nth b batched_randperm []))
      (nth b code []) (ignore_index self).
Proof.
  intros Hb Hr Hp. unfold _level_mask. cbn [fst snd].
  assert (Hm : length (map (fun ur => level_mask_row seq_len t (fst ur) (snd ur))
                           (combine rand_times batched_randperm)) = length code)
    by (rewrite length_map, length_combine; lia).
  split.
  - rewrite (map_combine_nth _ _ _ b [] [] []) by lia. cbn [fst snd].
    rewrite (map_combine_nth _ _ _ b 0%R [] []) by lia. reflexivity.
  - rewrite (map_combine_nth _ _ _ b [] [] []) by lia. cbn [fst snd].
    rewrite (map_combine_nth _ _ _ b 0%R [] []) by lia. reflexivity.
Qed.

Lemma masked_fill_count (row : list Z) (mask : list bool) (mid : Z) :
  length row = length mask -> ~ In mid row ->
  count_eq mid (masked_fill row mask mid) = count_true mask.
Proof.
  intros Hl Hnot.
  rewrite count_eq_positions, count_true_positions, masked_fill_length by assumption.
  rewrite Hl. f_equal. apply filter_ext_in. intros p Hp. apply in_seq in Hp.
  rewrite masked_fill_nth by lia.
  destruct (nth p mask false); [apply Z.eqb_refl |].
  apply Z.eqb_neq. intros E. apply Hnot. rewrite E. apply nth_In. lia.
Qed.

(** C7, as amended.  For batch item [b] of the mask level, with
    [n = seq_len - t >= 1] maskable positions, a ranking [randperm] of them
    and the draw [u], the number of positions of the item set to the mask id
    is [ceil (max (r * n) 1)] with [r = cos (u * pi / 2)]: the ranks
    [0 .. n-1] are compared with the real number [max (r * n) 1], which is
    never rounded. *)
Theorem level_mask_count (self : SoundStorm) (code : list (list Z)) (seq_len t : nat)
    (rand_times : list R) (batched_randperm : list (list nat)) (b : nat) :
  (t < seq_len)%nat ->
  (b < length code)%nat ->
  length rand_times = length code ->
  length batched_randperm = length code ->
  length (nth b code []) = seq_len ->
  Permutation (nth b batched_randperm []) (seq 0 (seq_len - t)) ->
  ~ In (mask_token_id self) (nth b code []) ->
  Z.of_nat (count_eq (mask_token_id self)
              (nth b (fst (_level_mask self code seq_len t rand_times batched_randperm)) []))
  = Rceil (Rmax (cosine_schedule (nth b rand_times 0%R) * INR (seq_len - t)) 1).
Proof.
  intros Ht Hb Hr Hp Hrow Hperm Hnot.
  destruct (level_mask_nth self code seq_len t rand_times batched_randperm b Hb Hr Hp)
    as [E _].
  rewrite E, masked_fill_count.
  - now apply level_mask_row_count.
  - rewrite level_mask_row_length; [assumption | | lia].
    rewrite (Permutation_length Hperm). apply length_seq.
  - exact Hnot.
Qed.

Lemma level_mask_count_witness :
  Z.of_nat (count_eq (mask_token_id (example_model []))
              (nth 0 (fst (_level_mask (example_model []) [[5; 6]] 2 0
                             [0%R] [[1; 0]%nat])) []))
  = Rceil (Rmax (cosine_schedule (nth 0 [0%R] 0%R) * INR (2 - 0)) 1).
Proof.
  apply (level_mask_count (example_model []) [[5; 6]] 2 0 [0%R] [[1; 0]%nat] 0).
  - lia.
  - simpl. lia.
  - reflexivity.
  - reflexivity.
  - reflexivity.
  - simpl. apply perm_swap.
  - simpl. intros [H | [H | []]]; discriminate H.
Defined.

Lemma quarter_turn_value : (1 < cosine_schedule (1 / 2) * INR (2 - 0) < 3 / 2)%R.
Proof.
  unfold cosine_schedule.
  replace (1 / 2 * PI * (1 / 2))%R with (PI / 4)%R by field.
  rewrite cos_PI4. simpl.
  assert (Hs : (sqrt 2 * sqrt 2 = 2)%R) by (apply sqrt_sqrt; lra).
  assert (Hp : (0 < sqrt 2)%R) by (apply sqrt_lt_R0; lra).
  assert (Hlo : (1 < sqrt 2)%R) by nra.
  assert (Hhi : (sqrt 2 < 3 / 2)%R) by nra.
  assert (E : (1 / sqrt 2 * (1 + 1) = sqrt 2)%R).
  { replace (1 + 1)%R with (sqrt 2 * sqrt 2)%R by lra. field. lra. }
  rewrite E. lra.
Qed.

(** C7, as stated, fails.  One item, two maskable positions, draw
    [u = 1/2]: [r * n = cos (pi/4) * 2] lies between 1 and 3/2, so the
    stated count [max 1 (round (r * n))] is 1, and the code masks both
    positions. *)
Lemma mask_count_not_rounded :
  fst (_level_mask (example_model []) [[5; 6]] 2 0 [(1 / 2)%R] [[0; 1]%nat])
    = [[1025; 1025]] /\
  nearest (cosine_schedule (1 / 2) * INR (2 - 0)) 1 /\
  forall z, nearest (cosine_schedule (1 / 2) * INR (2 - 0)) z -> Z.max 1 z = 1.
Proof.
  pose proof quarter_turn_value as [Hlo Hhi].
  split; [| split].
  - unfold _level_mask, level_mask_row. cbn [combine map fst snd repeat app].
    rewrite Rmax_left by lra. unfold Rltb.
    change (INR 0) with 0%R. change (INR 1) with 1%R.
    destruct (Rlt_dec 0 (cosine_schedule (1 / 2) * INR (2 - 0))) as [_ | H];
      [| exfalso; apply H; lra].
    destruct (Rlt_dec 1 (cosine_schedule (1 / 2) * INR (2 - 0))) as [_ | H];
      [| exfalso; apply H; lra].
    reflexivity.
  - unfold nearest. apply Rabs_le. lra.
  - intros z Hz. unfold nearest in Hz.
    assert (Hz12 : (- (1 / 2) <= IZR z - (cosine_schedule (1 / 2) * INR (2 - 0)) <= 1 / 2)%R).
    { unfold Rabs in Hz. destruct (Rcase_abs _); lra. }
    assert (H0 : 0 < z) by (apply lt_IZR; lra).
    assert (H2 : z < 2) by (apply lt_IZR; lra).
    lia.
Qed.

(** * The training masker: what it writes and where *)

Lemma assign_from_nth (t : nat) (v : Z) (row : list Z) (p : nat) :
  (p < length row)%nat ->
  nth p (assign_from t v row) 0 = if (p <? t)%nat then nth p row 0 else v.
Proof.
  intros Hp. unfold assign_from.
  destruct (Nat.ltb_spec p t) as [Hlt | Hge].
  - rewrite app_nth1 by (rewrite length_firstn; lia).
    rewrite nth_firstn. now replace (p <? t)%nat with true by (symmetry; now apply Nat.ltb_lt).
  - rewrite app_nth2 by (rewrite length_firstn; lia).
    apply nth_repeat_lt. rewrite length_firstn. lia.
Qed.

Lemma assign_from_length (t : nat) (v : Z) (row : list Z) :
  length (assign_from t v row) = length row.
Proof. unfold assign_from. rewrite length_app, length_firstn, repeat_length. lia. Qed.

Section Masking.

Variable self : SoundStorm.
Variable codes : list (list (list Z)).
Variables (q t n : nat).
Variable rand_times : list R.
Variable batched_randperm : list (list nat).

Let lab := _level_mask self (nth q codes []) n t rand_times batched_randperm.
Let ref (i : nat) : tensor_ref := if Nat.eqb q i then Fresh (fst lab) else View i.
Let fine := map (assign_from t (mask_upper_level self)).

Lemma masking_loop_spec :
  forall (k s : nat) (store : list (list (list Z))) (mc : list tensor_ref)
         (label : option (list (list Z))),
    (s + k = length codes)%nat ->
    length store = length codes ->
    (forall i, (s <= i)%nat -> nth i store [] = nth i codes []) ->
    length (fst (fst (masking_loop self (seq s k) q t n rand_times batched_randperm
                        store mc label))) = length codes /\
    (forall i, (i < s)%nat \/ (i <= q)%nat \/ (length codes <= i)%nat ->
       nth i (fst (fst (masking_loop self (seq s k) q t n rand_times batched_randperm
                          store mc label))) [] = nth i store []) /\
    (forall i, (s <= i)%nat -> (q < i)%nat -> (i < length codes)%nat ->
       nth i (fst (fst (masking_loop self (seq s k) q t n rand_times batched_randperm
                          store mc label))) [] = fine (nth i codes [])) /\
    snd (fst (masking_loop self (seq s k) q t n rand_times batched_randperm
                store mc label)) = mc ++ map ref (seq s k) /\
    ((s <= q < s + k)%nat ->
       snd (masking_loop self (seq s k) q t n rand_times batched_randperm
              store mc label) = Some (snd lab)) /\
    (~ (s <= q < s + k)%nat ->
       snd (masking_loop self (seq s k) q t n rand_times batched_randperm
              store mc label) = label).
Proof.
  induction k as [| k IH]; intros s store mc label Hsk Hlen Hsame.
  - cbn. rewrite app_nil_r. repeat split; auto; intros; lia.
  - cbn [seq masking_loop].
    destruct (Nat.eqb_spec q s) as [Eq | Nq].
    + subst s. cbn [deref]. rewrite (Hsame q (Nat.le_refl q)). fold lab.
      destruct (IH (S q) store (mc ++ [Fresh (fst lab)]) (Some (snd lab))
                  ltac:(lia) Hlen ltac:(intros i Hi; apply Hsame; lia))
        as (H1 & H2 & H3 & H4 & H5 & H6).
      split; [exact H1 |]. split; [intros i Hi; apply H2; lia |].
      split; [intros i Hi1 Hi2 Hi3; apply H3; lia |].
      split; [| split].
      * rewrite H4, <- app_assoc. cbn [app map]. unfold ref at 2.
        now rewrite Nat.eqb_refl.
      * intros _. apply H6. lia.
      * intros Hn. lia.
    + destruct (Nat.ltb_spec q s) as [Hlt | Hge].
      * cbn [_fine_mask fst snd]. rewrite (Hsame s (Nat.le_refl s)). fold fine.
        destruct (IH (S s) (set_row s (fine (nth s codes [])) store) (mc ++ [View s]) label
                    ltac:(lia) ltac:(now rewrite set_row_length)
                    ltac:(intros i Hi; rewrite set_row_nth_other by lia; apply Hsame; lia))
          as (H1 & H2 & H3 & H4 & H5 & H6).
        split; [exact H1 |]. split; [| split; [| split; [| split]]].
        -- intros i Hi. rewrite H2 by lia. apply set_row_nth_other. lia.
        -- intros i Hi1 Hi2 Hi3. destruct (Nat.eq_dec i s) as [-> | Hne].
           ++ rewrite H2 by lia. apply set_row_nth_same. lia.
           ++ apply H3; lia.
        -- rewrite H4, <- app_assoc. cbn [app map]. unfold ref at 2.
           now replace (Nat.eqb q s) with false by (symmetry; now apply Nat.eqb_neq).
        -- intros Hn. lia.
        -- intros Hn. apply H6. lia.
      * destruct (IH (S s) store (mc ++ [View s]) label
                    ltac:(lia) Hlen ltac:(intros i Hi; apply Hsame; lia))
          as (H1 & H2 & H3 & H4 & H5 & H6).
        split; [exact H1 |]. split; [| split; [| split; [| split]]].
        -- intros i Hi. apply H2. lia.
        -- intros i Hi1 Hi2 Hi3. apply H3; lia.
        -- rewrite H4, <- app_assoc. cbn [app map]. unfold ref at 2.
           now replace (Nat.eqb q s) with false by (symmetry; now apply Nat.eqb_neq).
        -- intros Hn. apply H5. lia.
        -- intros Hn. apply H6. lia.
Qed.

End Masking.

Lemma map_seq_nth {A : Type} (f : nat -> A) (n i : nat) (d : A) :
  (i < n)%nat -> nth i (map f (seq 0 n)) d = f i.
Proof.
  intros Hi. rewrite (nth_indep _ d (f 0%nat)) by now rewrite length_map, length_seq.
  rewrite (map_nth f), seq_nth by assumption. reflexivity.
Qed.

Lemma forward_masking_spec (self : SoundStorm) (codes : list (list (list Z))) (q t : nat)
    (rand_times : list R) (batched_randperm : list (list nat)) :
  (q < length codes)%nat ->
  exists input store',
    forward_masking self codes q t rand_times batched_randperm =
      Ok (input,
          snd (_level_mask self (nth q codes []) (length (hd [] (hd [] codes))) t
                 rand_times batched_randperm),
          store') /\
    length store' = length codes /\
    length input = length codes /\
    (forall i, (i <= q)%nat -> nth i store' [] = nth i codes []) /\
    (forall i, (q < i < length codes)%nat ->
       nth i store' [] = map (assign_from t (mask_upper_level self)) (nth i codes [])) /\
    (forall i, (i < q)%nat -> nth i input [] = nth i codes []) /\
    nth q input [] =
      fst (_level_mask self (nth q codes []) (length (hd [] (hd [] codes))) t
             rand_times batched_randperm) /\
    (forall i, (q < i < length codes)%nat ->
       nth i input [] = map (assign_from t (mask_upper_level self)) (nth i codes [])).
Proof.
  intros Hq.
  destruct (masking_loop_spec self codes q t (length (hd [] (hd [] codes)))
              rand_times batched_randperm (length codes) 0 codes [] None
              ltac:(lia) eq_refl ltac:(auto))
    as (H1 & H2 & H3 & H4 & H5 & _).
  unfold forward_masking, _masking. rewrite (H5 ltac:(lia)). cbn [bind fst snd].
  eexists. eexists. split; [reflexivity |].
  rewrite H4. cbn [app]. rewrite !length_map, length_seq.
  split; [exact H1 |]. split; [reflexivity |].
  split; [intros i Hi; apply H2; lia |].
  split; [intros i Hi; apply H3; lia |].
  split; [| split].
  - intros i Hi. rewrite map_map, map_seq_nth by lia.
    replace (Nat.eqb q i) with false by (symmetry; apply Nat.eqb_neq; lia).
    cbn [deref]. apply H2. lia.
  - rewrite map_map, map_seq_nth by lia. now rewrite Nat.eqb_refl.
  - intros i Hi. rewrite map_map, map_seq_nth by lia.
    replace (Nat.eqb q i) with false by (symmetry; apply Nat.eqb_neq; lia).
    cbn [deref]. apply H3; lia.
Qed.

(** C8, as amended.  At every level [i > q] the training input holds the
    original code at the positions before [t] and the upper-level id from
    [t] on; that id is the mask id itself, 1025. *)
Theorem fine_levels_hidden (config : Config) (self : SoundStorm)
    (codes : list (list (list Z))) (q t i : nat)
    (rand_times : list R) (batched_randperm : list (list nat)) :
  init config = Ok self ->
  (q < i)%nat -> (i < length codes)%nat ->
  exists input labels store',
    forward_masking self codes q t rand_times batched_randperm
      = Ok (input, labels, store') /\
    (forall b p, (b < length (nth i codes []))%nat ->
       (p < length (nth b (nth i codes []) []))%nat ->
       nth p (nth b (nth i input []) []) 0 =
       if (p <? t)%nat then nth p (nth b (nth i codes []) []) 0
       else mask_upper_level self) /\
    mask_upper_level self = mask_token_id self.
Proof.
  intros Hinit Hqi Hi.
  destruct (init_fields _ _ Hinit) as (Hmid & Hup & _).
  destruct (forward_masking_spec self codes q t rand_times batched_randperm ltac:(lia))
    as (input & store' & Hrun & _ & _ & _ & _ & _ & _ & Hfine).
  eexists input, _, store'. split; [exact Hrun |]. split; [| congruence].
  intros b p Hb Hp. rewrite Hfine by lia.
  rewrite (nth_indep _ [] (assign_from t (mask_upper_level self) []))
    by now rewrite length_map.
  rewrite (map_nth (assign_from t (mask_upper_level self))).
  now apply assign_from_nth.
Qed.

Lemma fine_levels_hidden_witness :
  exists input labels store',
    forward_masking (example_model []) example_training_codes 0 1 [0%R] [[0%nat]]
      = Ok (input, labels, store') /\
    (forall b p, (b < length (nth 1 example_training_codes []))%nat ->
       (p < length (nth b (nth 1 example_training_codes []) []))%nat ->
       nth p (nth b (nth 1 input []) []) 0 =
       if (p <? 1)%nat then nth p (nth b (nth 1 example_training_codes []) []) 0
       else mask_upper_level (example_model [])) /\
    mask_upper_level (example_model []) = mask_token_id (example_model []).
Proof.
  apply (fine_levels_hidden (example_config []) (example_model [])
           example_training_codes 0 1 1 [0%R] [[0%nat]]).
  - reflexivity.
  - lia.
  - simpl. lia.
Defined.

(** C8, as stated, fails: the constructor gives the upper-level id and the
    mask id the same value. *)
Lemma upper_level_id_is_mask_id :
  init (example_config []) = Ok (example_model []) /\
  mask_upper_level (example_model []) = mask_token_id (example_model []).
Proof. split; reflexivity. Qed.

(** C9: the code writes into the caller's tensor.  Two levels, one item,
    one frame, [q = 0], [t = 0]: after the call the caller's [codes] holds
    1025 at level 1, where it held 7. *)
Theorem fine_mask_writes_callers_codes :
  exists input labels store',
    forward_masking (example_model []) [[[5]]; [[7]]] 0 0 [0%R] [[0%nat]]
      = Ok (input, labels, store') /\
    store' = [[[5]]; [[1025]]] /\
    store' <> [[[5]]; [[7]]].
Proof.
  destruct (forward_masking_spec (example_model []) [[[5]]; [[7]]] 0 0 [0%R] [[0%nat]]
              ltac:(simpl; lia))
    as (input & store' & Hrun & Hlen & _ & Hkeep & Hfine & _).
  eexists input, _, store'. split; [exact Hrun |].
  assert (E : store' = [[[5]]; [[1025]]]).
  { pose proof (Hkeep 0%nat ltac:(lia)) as H0.
    pose proof (Hfine 1%nat ltac:(simpl; lia)) as H1.
    destruct store' as [| x [| y [| z rest]]]; try discriminate Hlen.
    cbn in H0, H1. now subst. }
  split; [exact E |]. rewrite E. discriminate.
Qed.

(** * The prompt *)








(** * A worked run *)

Example topk_example : topk [1 # 2; 9 # 10; 3 # 10]%Q 2 = Ok [1; 0]%nat.
Proof. reflexivity. Qed.

Example topk_too_many : topk [1 # 2; 9 # 10]%Q 3 = Raise RuntimeError.
Proof. reflexivity. Qed.

Example top_k_example :
  top_k [[1; 5; 3; 4]%Q] (1 # 2) = Ok [[None; Some 5; None; Some 4]%Q].
Proof. reflexivity. Qed.

Lemma all_mask_num_tokens_2_2 : all_mask_num_tokens 2 2 = [1; 0].
Proof.
  rewrite all_mask_num_tokens_eq. cbn [seq map]. f_equal.
  - pose proof quarter_turn_value as [Hlo Hhi].
    replace (INR (0 + 1) / INR 2)%R with (1 / 2)%R by (simpl; lra).
    change (INR 2) with (INR (2 - 0)).
    rewrite long_nonneg by lra. symmetry. apply Int_part_spec. lra.
  - f_equal. exact (schedule_last 1 2).
Qed.

(** Level 0 in two steps over two positions.  Step 0 fills both, then
    re-masks position 1, the one with the higher score; step 1 fills it
    again and leaves its flag set. *)
Example two_step_level :
  exists st e0 e1,
    decode example_step2 (example_model (2 :: repeat 1 7)%nat) 2 example_codes [0%nat]
      = Ok (st, [e0; e1]) /\
    log_target e0 = 1 /\
    nth 0 (gs_seq (log_after e0)) [] = [7; 1025] /\
    nth 0 (gs_mask (log_after e0)) [] = [false; true] /\
    log_target e1 = 0 /\
    nth 0 (gs_seq st) [] = [7; 8] /\
    nth 0 (gs_mask st) [] = [false; true] /\
    nth 1 (gs_seq st) [] = [1025; 1025].
Proof.
  assert (E : decode example_step2 (example_model (2 :: repeat 1 7)%nat) 2 example_codes
                [0%nat] =
              decode_with example_step2 (example_model (2 :: repeat 1 7)%nat) example_sched
                2 example_codes [0%nat]).
  { apply decode_levels_ext. intros l S' [<- | []] Hnth. cbn in Hnth.
    inversion Hnth; subst S'. apply all_mask_num_tokens_2_2. }
  rewrite E. do 3 eexists. split; [cbv; reflexivity |].
  repeat split.
Qed.

Example generate_example :
  generate example_step (example_model (repeat 1%nat 8)) 2 example_codes
    = Ok (repeat [5; 7; 7] 8).
Proof.
  unfold generate, generate_with, decode_with.
  rewrite (decode_levels_ext example_step (example_model (repeat 1%nat 8))
             (num_latents_to_generate 2) (prompt_of 2 example_codes)
             all_mask_num_tokens (fun _ _ => [0]) (seq 0 8)).
  - reflexivity.
  - intros l S' _ Hnth. assert (S' = 1%nat).
    { apply nth_error_In in Hnth. now apply repeat_spec in Hnth. }
    subst S'. apply all_mask_num_tokens_1.
Qed.

(** * Further properties: the schedule *)



Lemma all_mask_num_tokens_sorted (iter_steps seq_len : nat) :
  StronglySorted (fun a b => b <= a) (all_mask_num_tokens iter_steps seq_len).
Proof.
  rewrite all_mask_num_tokens_eq.
  apply sorted_map_seq. intros j j' _ Hjj Hj'. simpl in Hj'.
  rewrite !long_nonneg by (apply schedule_value_range; lia).
  apply Int_part_mono, schedule_value_mono; lia.
Qed.

Lemma all_mask_num_tokens_range (iter_steps seq_len : nat) :
  Forall (fun t => 0 <= t <= Z.of_nat seq_len) (all_mask_num_tokens iter_steps seq_len).
Proof.
  rewrite all_mask_num_tokens_eq.
  rewrite Forall_forall. intros t Ht. apply in_map_iff in Ht.
  destruct Ht as [j [<- Hj]]. apply in_seq in Hj.
  rewrite long_nonneg by (apply schedule_value_range; lia).
  apply Int_part_range, schedule_value_range. lia.
Qed.

(** X2.  The schedule of a level has one target per step; every target is
    between 0 and the number of generated positions; the targets never
    increase from one step to the next; and, unless the level has no step
    at all, the last target is 0. *)
Theorem schedule_shape (iter_steps seq_len : nat) :
  length (all_mask_num_tokens iter_steps seq_len) = iter_steps /\
  Forall (fun t => 0 <= t <= Z.of_nat seq_len) (all_mask_num_tokens iter_steps seq_len) /\
  StronglySorted (fun a b => b <= a) (all_mask_num_tokens iter_steps seq_len) /\
  (iter_steps = 0%nat \/ last (all_mask_num_tokens iter_steps seq_len) 1 = 0).
Proof.
  split; [| split; [| split]].
  - now rewrite all_mask_num_tokens_eq, length_map, length_seq.
  - apply all_mask_num_tokens_range.
  - apply all_mask_num_tokens_sorted.
  - destruct iter_steps as [| k]; [now left | right].
    destruct (all_mask_num_tokens_last k seq_len) as [front E].
    rewrite E. apply last_last.
Qed.

(** * Further properties: [generate] *)


Lemma row_inv_resolved (mid : Z) (N m : nat) (row : list Z) (flags : list bool) :
  mid = 1025 -> row_inv mid N m 0 row flags ->
  length row = N /\ Forall (fun v => 0 <= v < 1025) row.
Proof.
  intros Hmid (Hl & _ & _ & Hc & _ & Hval). split; [exact Hl |].
  rewrite Forall_forall. intros v Hv.
  destruct (In_nth _ _ 0 Hv) as (p & Hp & <-).
  destruct (Hval p ltac:(lia)) as [E | Hr]; [| exact Hr].
  exfalso. exact (count_eq_zero_nth mid row p Hc Hp E).
Qed.

Lemma generate_rows (model_step : nat -> nat -> list (list Z) -> list Z * list Q)
    (self : SoundStorm) (conds_len : nat) (codes : list (list Z)) :
  mask_token_id self = 1025 ->
  model_ok model_step (num_latents_to_generate conds_len) ->
  length codes = 8%nat ->
  (8 <= length (steps self))%nat ->
  exists st out,
    generate model_step self conds_len codes = Ok out /\
    length out = 8%nat /\
    (forall l, (l < 8)%nat ->
       nth l out [] =
       firstn (num_prompt conds_len) (nth l codes []) ++ nth l (gs_seq st) []) /\
    (forall l iter_steps, (l < 8)%nat ->
       nth_error (steps self) l = Some iter_steps ->
       exists m', row_inv (mask_token_id self) (num_latents_to_generate conds_len) m'
                    (if Nat.eqb iter_steps 0 then num_latents_to_generate conds_len else 0%nat)
                    (nth l (gs_seq st) []) (nth l (gs_mask st) [])).
Proof.
  intros Hmid Hok Hcodes Hsteps.
  destruct (decode_spec model_step self conds_len codes (seq 0 8) Hmid Hok Hcodes
              (seq_NoDup _ _) (all_layers_ok 8 self ltac:(lia) Hsteps))
    as (st & tr & Hrun & Hsh & Hrows & _).
  destruct (generate_ok model_step self conds_len codes Hmid Hok Hcodes Hsteps)
    as (st' & tr' & Hrun' & _ & Hgen).
  rewrite Hrun in Hrun'. inversion Hrun'; subst st' tr'.
  exists st. eexists. split; [exact Hgen |].
  destruct Hsh as (Hs1 & _ & _).
  split; [| split].
  - rewrite length_map, length_combine, prompt_of_length. lia.
  - intros l Hl. rewrite (map_combine_nth _ _ _ l [] [] [])
      by (rewrite ?prompt_of_length; lia).
    cbn [fst snd]. f_equal. unfold prompt_of.
    rewrite (nth_indep _ [] (firstn (num_prompt conds_len) []))
      by (rewrite length_map; lia).
    apply (map_nth (firstn (num_prompt conds_len))).
  - intros l S' Hl HS. apply Hrows; [apply in_seq; lia | exact HS].
Qed.

(** X3.  When each of the first eight step counts is at least 1,
    [generate] returns eight level rows, and every row is the prompt of its
    level followed by one code in [0, 1025) per generated position: no mask
    id is left anywhere in the output.  When [codes] has at least
    [num_prompt] frames the rows have [int(conds_len * 1.5)] entries. *)
Theorem generate_output_resolved (config : Config) (self : SoundStorm)
    (model_step : nat -> nat -> list (list Z) -> list Z * list Q)
    (conds_len : nat) (codes : list (list Z)) :
  init config = Ok self ->
  model_ok model_step (num_latents_to_generate conds_len) ->
  length codes = 8%nat ->
  (8 <= length (steps self))%nat ->
  Forall (fun iter_steps => (1 <= iter_steps)%nat) (firstn 8 (steps self)) ->
  Forall (fun row => (num_prompt conds_len <= length row)%nat) codes ->
  exists out,
    generate model_step self conds_len codes = Ok out /\
    length out = 8%nat /\
    forall l, (l < 8)%nat ->
      output_row conds_len codes (fun v => 0 <= v < 1025) l out /\
      length (nth l out []) = num_latents_input conds_len.
Proof.
  intros Hinit Hok Hcodes Hsteps Hpos Hlong.
  destruct (init_fields _ _ Hinit) as (Hmid & _).
  destruct (generate_rows model_step self conds_len codes Hmid Hok Hcodes Hsteps)
    as (st & out & Hgen & Hlen & Hrow & Hinv).
  exists out. split; [exact Hgen |]. split; [exact Hlen |].
  intros l Hl.
  destruct (nth_error (steps self) l) as [S' |] eqn:ES;
    [| apply nth_error_None in ES; lia].
  destruct (Hinv l S' Hl ES) as [m' Hrinv].
  assert (HS : (1 <= S')%nat).
  { rewrite Forall_forall in Hpos. apply Hpos.
    apply (nth_error_In _ l). rewrite nth_error_firstn.
    replace (l <? 8)%nat with true by (symmetry; now apply Nat.ltb_lt). exact ES. }
  replace (Nat.eqb S' 0) with false in Hrinv by (symmetry; apply Nat.eqb_neq; lia).
  destruct (row_inv_resolved _ _ _ _ _ Hmid Hrinv) as [HlenN Hall].
  split.
  - exists (nth l (gs_seq st) []). split; [apply Hrow; exact Hl | split; assumption].
  - rewrite (Hrow l Hl), length_app, length_firstn, HlenN.
    rewrite Forall_forall in Hlong.
    assert (Hge : (num_prompt conds_len <= length (nth l codes []))%nat)
      by (apply Hlong, nth_In; lia).
    unfold num_latents_to_generate, num_prompt in *.
    pose proof (Nat.Div0.div_le_upper_bound (num_latents_input conds_len) 2
                  (num_latents_input conds_len) ltac:(lia)).
    lia.
Qed.

Lemma generate_output_resolved_witness :
  exists out,
    generate example_step2 (example_model (2 :: repeat 1 7)%nat) 2 example_codes = Ok out /\
    length out = 8%nat /\
    forall l, (l < 8)%nat ->
      output_row 2 example_codes (fun v => 0 <= v < 1025) l out /\
      length (nth l out []) = num_latents_input 2.
Proof.
  apply (generate_output_resolved (example_config (2 :: repeat 1 7)%nat)
           (example_model (2 :: repeat 1 7)%nat) example_step2 2 example_codes).
  - reflexivity.
  - exact example_step2_ok.
  - reflexivity.
  - simpl. lia.
  - simpl. repeat constructor.
  - unfold example_codes. simpl. repeat constructor.
Defined.



Lemma decode_step_model_ext (model_step : nat -> nat -> list (list Z) -> list Z * list Q)
    (self self' : SoundStorm) (prompt : list (list Z)) (l i : nat) (t : Z) (st : GenState) :
  mask_token_id self = mask_token_id self' ->
  decode_step model_step self prompt l i t st = decode_step model_step self' prompt l i t st.
Proof. intros E. unfold decode_step. now rewrite E. Qed.

Lemma decode_level_model_ext (model_step : nat -> nat -> list (list Z) -> list Z * list Q)
    (self self' : SoundStorm) (prompt : list (list Z)) (l : nat) :
  mask_token_id self = mask_token_id self' ->
  forall ts i st,
    decode_level model_step self prompt l i ts st =
    decode_level model_step self' prompt l i ts st.
Proof.
  intros E. induction ts as [| t ts IH]; intros i st; [reflexivity |].
  cbn [decode_level]. rewrite (decode_step_model_ext model_step self self') by exact E.
  destruct (decode_step model_step self' prompt l i t st) as [st1 |]; [| reflexivity].
  cbn [bind]. now rewrite IH.
Qed.

Lemma decode_levels_model_ext (model_step : nat -> nat -> list (list Z) -> list Z * list Q)
    (self self' : SoundStorm) (sched : nat -> nat -> list Z) (prompt : list (list Z))
    (N : nat) (layers : list nat) :
  mask_token_id self = mask_token_id self' ->
  (forall l, In l layers -> nth_error (steps self) l = nth_error (steps self') l) ->
  forall st,
    decode_levels model_step self sched prompt N layers st =
    decode_levels model_step self' sched prompt N layers st.
Proof.
  intros E. induction layers as [| l rest IH]; intros H st; [reflexivity |].
  cbn [decode_levels]. rewrite (H l (or_introl eq_refl)).
  destruct (nth_error (steps self') l) as [S' |]; [| reflexivity].
  rewrite (decode_level_model_ext model_step self self') by exact E.
  destruct (decode_level model_step self' prompt l 0 (sched S' N) st) as [r |];
    [| reflexivity].
  cbn [bind]. rewrite IH; [reflexivity |]. intros j Hj. apply H. now right.
Qed.

(** X5.  [generate] reads [self.steps] at the indices 0 to 7 only: two
    models with the same mask id whose lists of steps agree on their first
    eight entries generate the same result, error or not, whatever else
    the lists hold. *)
Theorem steps_beyond_eight_ignored
    (model_step : nat -> nat -> list (list Z) -> list Z * list Q)
    (self self' : SoundStorm) (conds_len : nat) (codes : list (list Z)) :
  mask_token_id self = mask_token_id self' ->
  firstn 8 (steps self) = firstn 8 (steps self') ->
  generate model_step self conds_len codes = generate model_step self' conds_len codes.
Proof.
  intros E Hsteps. unfold generate, generate_with, decode_with, initial_state.
  rewrite E.
  rewrite (decode_levels_model_ext model_step self self'); [reflexivity | exact E |].
  intros l Hl. apply in_seq in Hl.
  assert (H : nth_error (firstn 8 (steps self)) l = nth_error (firstn 8 (steps self')) l)
    by now rewrite Hsteps.
  rewrite !nth_error_firstn in H.
  now replace (l <? 8)%nat with true in H by (symmetry; apply Nat.ltb_lt; lia).
Qed.

Lemma steps_beyond_eight_ignored_witness :
  generate example_step (example_model (repeat 1 8 ++ [5; 0; 3])%nat) 2 example_codes =
  generate example_step (example_model (repeat 1%nat 8)) 2 example_codes.
Proof.
  apply (steps_beyond_eight_ignored example_step
           (example_model (repeat 1 8 ++ [5; 0; 3])%nat) (example_model (repeat 1%nat 8))
           2 example_codes).
  - reflexivity.
  - reflexivity.
Defined.











(** X8.  The split of the time axis in [generate]: the prompt takes at most
    225 frames and at most half of the [int(conds_len * 1.5)] frames; the
    rest is generated, so at least as many frames are generated as are
    given, and the two parts add up to the whole. *)
Theorem prompt_split (conds_len : nat) :
  (num_prompt conds_len <= 225)%nat /\
  (2 * num_prompt conds_len <= num_latents_input conds_len)%nat /\
  (num_prompt conds_len <= num_latents_to_generate conds_len)%nat /\
  (num_prompt conds_len + num_latents_to_generate conds_len
   = num_latents_input conds_len)%nat /\
  (2 * num_latents_input conds_len <= 3 * conds_len)%nat /\
  (3 * conds_len < 2 * num_latents_input conds_len + 2)%nat.
Proof.
  unfold num_latents_to_generate, num_prompt, num_latents_input.
  pose proof (Nat.div_mod_eq (conds_len * 3) 2) as H1.
  pose proof (Nat.mod_upper_bound (conds_len * 3) 2 ltac:(lia)) as H2.
  pose proof (Nat.div_mod_eq (conds_len * 3 / 2) 2) as H3.
  pose proof (Nat.mod_upper_bound (conds_len * 3 / 2) 2 ltac:(lia)) as H4.
  lia.
Qed.

(** * Further properties: the training masker *)

(** X9.  Labels and masked input of the mask level mirror each other.  For
    an item whose codes are real codes (below 1025), at every position:
    where the mask is set the input holds the mask id and the label the
    original code; elsewhere the input holds the original code and the
    label the ignore index.  So the label differs from the ignore index
    exactly where the input was replaced by the mask id. *)
Theorem labels_cover_masked_positions (config : Config) (self : SoundStorm)
    (code : list (list Z)) (seq_len t : nat)
    (rand_times : list R) (batched_randperm : list (list nat)) (b p : nat) :
  init config = Ok self ->
  (t <= seq_len)%nat ->
  (b < length code)%nat ->
  length rand_times = length code ->
  length batched_randperm = length code ->
  length (nth b code []) = seq_len ->
  length (nth b batched_randperm []) = (seq_len - t)%nat ->
  (p < seq_len)%nat ->
  0 <= nth p (nth b code []) 0 < 1025 ->
  (nth p (level_mask_row seq_len t (nth b rand_times 0%R) (nth b batched_randperm []))
     false = true ->
   nth p (nth b (fst (_level_mask self code seq_len t rand_times batched_randperm)) []) 0
     = mask_token_id self /\
   nth p (nth b (snd (_level_mask self code seq_len t rand_times batched_randperm)) []) 0
     = nth p (nth b code []) 0) /\
  (nth p (level_mask_row seq_len t (nth b rand_times 0%R) (nth b batched_randperm []))
     false = false ->
   nth p (nth b (fst (_level_mask self code seq_len t rand_times batched_randperm)) []) 0
     = nth p (nth b code []) 0 /\
   nth p (nth b (snd (_level_mask self code seq_len t rand_times batched_randperm)) []) 0
     = ignore_index self) /\
  (nth p (nth b (snd (_level_mask self code seq_len t rand_times batched_randperm)) []) 0
     <> ignore_index self <->
   nth p (nth b (fst (_level_mask self code seq_len t rand_times batched_randperm)) []) 0
     = mask_token_id self).
Proof.
  intros Hinit Ht Hb Hr Hp Hrow Hperm Hpos Hcode.
  destruct (init_fields _ _ Hinit) as (Hmid & _ & Hign & _).
  destruct (level_mask_nth self code seq_len t rand_times batched_randperm b Hb Hr Hp)
    as [Ein Elab].
  assert (Hml : length (level_mask_row seq_len t (nth b rand_times 0%R)
                          (nth b batched_randperm [])) = seq_len)
    by (apply level_mask_row_length; assumption).
  rewrite Ein, Elab, masked_fill_nth, where_else_nth by lia.
  destruct (nth p (level_mask_row seq_len t (nth b rand_times 0%R)
                     (nth b batched_randperm [])) false).
  - split; [auto |]. split; [discriminate |].
    split; [intros _; reflexivity | intros _; lia].
  - split; [discriminate |]. split; [auto |].
    split; [intros H; now contradiction H | intros H; lia].
Qed.

Lemma labels_cover_masked_positions_witness :
  (nth 1 (level_mask_row 2 0 (nth 0 [0%R] 0%R) (nth 0 [[1; 0]%nat] [])) false = true ->
   nth 1 (nth 0 (fst (_level_mask (example_model []) [[5; 6]] 2 0 [0%R] [[1; 0]%nat])) []) 0
     = mask_token_id (example_model []) /\
   nth 1 (nth 0 (snd (_level_mask (example_model []) [[5; 6]] 2 0 [0%R] [[1; 0]%nat])) []) 0
     = nth 1 (nth 0 [[5; 6]] []) 0) /\
  (nth 1 (level_mask_row 2 0 (nth 0 [0%R] 0%R) (nth 0 [[1; 0]%nat] [])) false = false ->
   nth 1 (nth 0 (fst (_level_mask (example_model []) [[5; 6]] 2 0 [0%R] [[1; 0]%nat])) []) 0
     = nth 1 (nth 0 [[5; 6]] []) 0 /\
   nth 1 (nth 0 (snd (_level_mask (example_model []) [[5; 6]] 2 0 [0%R] [[1; 0]%nat])) []) 0
     = ignore_index (example_model [])) /\
  (nth 1 (nth 0 (snd (_level_mask (example_model []) [[5; 6]] 2 0 [0%R] [[1; 0]%nat])) []) 0
     <> ignore_index (example_model []) <->
   nth 1 (nth 0 (fst (_level_mask (example_model []) [[5; 6]] 2 0 [0%R] [[1; 0]%nat])) []) 0
     = mask_token_id (example_model [])).
Proof.
  apply (labels_cover_masked_positions (example_config []) (example_model [])
           [[5; 6]] 2 0 [0%R] [[1; 0]%nat] 0 1).
  - reflexivity.
  - lia.
  - simpl. lia.
  - reflexivity.
  - reflexivity.
  - reflexivity.
  - reflexivity.
  - lia.
  - simpl. lia.
Defined.

Lemma Rceil_INR (n : nat) : Rceil (INR n) = Z.of_nat n.
Proof.
  destruct (Rceil_spec (INR n)) as [H1 H2].
  assert (Rceil (INR n) - 1 < Z.of_nat n)
    by (apply lt_IZR; rewrite minus_IZR, <- INR_IZR_INZ; lra).
  assert (Z.of_nat n <= Rceil (INR n))
    by (apply le_IZR; rewrite <- INR_IZR_INZ; lra).
  lia.
Qed.

(** X10.  The mask of an item is never empty and never larger than the
    maskable region: with [n = seq_len - t >= 1] maskable positions, between 1
    and [n] positions are masked, whatever the draw; with the draw 0 (ratio
    1) all [n] are. *)
Theorem masked_count_bounds (seq_len t : nat) (rand_time : R) (randperm : list nat) :
  (t < seq_len)%nat ->
  Permutation randperm (seq 0 (seq_len - t)) ->
  (1 <= count_true (level_mask_row seq_len t rand_time randperm) <= seq_len - t)%nat /\
  count_true (level_mask_row seq_len t 0 randperm) = (seq_len - t)%nat.
Proof.
  intros Ht Hperm. split.
  - pose proof (level_mask_row_count seq_len t rand_time randperm Ht Hperm) as Hc.
    destruct (Rceil_spec (Rmax (cosine_schedule rand_time * INR (seq_len - t)) 1))
      as [H1 H2].
    assert (Hx1 : (1 <= Rmax (cosine_schedule rand_time * INR (seq_len - t)) 1)%R)
      by apply Rmax_r.
    assert (Hxn : (Rmax (cosine_schedule rand_time * INR (seq_len - t)) 1
                   <= INR (seq_len - t))%R).
    { apply Rmax_lub.
      - destruct (COS_bound (rand_time * PI * (1 / 2))) as [_ Hcos].
        unfold cosine_schedule. pose proof (pos_INR (seq_len - t)) as Hn. nra.
      - change 1%R with (INR 1). apply le_INR. lia. }
    assert (0 < Rceil (Rmax (cosine_schedule rand_time * INR (seq_len - t)) 1))
      by (apply lt_IZR; lra).
    assert (Rceil (Rmax (cosine_schedule rand_time * INR (seq_len - t)) 1)
            < Z.of_nat (seq_len - t) + 1).
    { apply lt_IZR. rewrite plus_IZR, <- INR_IZR_INZ. lra. }
    lia.
  - pose proof (level_mask_row_count seq_len t 0 randperm Ht Hperm) as Hc.
    assert (E : Rmax (cosine_schedule 0 * INR (seq_len - t)) 1 = INR (seq_len - t)).
    { unfold cosine_schedule. replace (0 * PI * (1 / 2))%R with 0%R by ring.
      rewrite cos_0, Rmult_1_l. apply Rmax_left.
      change 1%R with (INR 1). apply le_INR. lia. }
    rewrite E, Rceil_INR in Hc. lia.
Qed.

Lemma masked_count_bounds_witness :
  (1 <= count_true (level_mask_row 3 1 (1 / 2) [1; 0]%nat) <= 3 - 1)%nat /\
  count_true (level_mask_row 3 1 0 [1; 0]%nat) = (3 - 1)%nat.
Proof.
  apply (masked_count_bounds 3 1 (1 / 2) [1; 0]%nat).
  - lia.
  - simpl. apply perm_swap.
Defined.


(** X12.  What a call of the masker leaves in the caller's tensor: the
    levels up to the mask level are as they were; every finer level keeps
    its codes before [t] and holds the upper-level id from [t] on.  The fine
    levels of the masked input are these overwritten rows themselves. *)
Theorem masking_footprint (self : SoundStorm) (codes : list (list (list Z)))
    (q t : nat) (rand_times : list R) (batched_randperm : list (list nat)) :
  (q < length codes)%nat ->
  exists input labels store',
    forward_masking self codes q t rand_times batched_randperm
      = Ok (input, labels, store') /\
    length store' = length codes /\
    (forall i, (i <= q)%nat -> nth i store' [] = nth i codes []) /\
    (forall i b p, (q < i)%nat -> (i < length codes)%nat ->
       (b < length (nth i codes []))%nat ->
       (p < length (nth b (nth i codes []) []))%nat ->
       nth p (nth b (nth i store' []) []) 0 =
       if (p <? t)%nat then nth p (nth b (nth i codes []) []) 0
       else mask_upper_level self) /\
    (forall i, (q < i)%nat -> (i < length codes)%nat -> nth i input [] = nth i store' []).
Proof.
  intros Hq.
  destruct (forward_masking_spec self codes q t rand_times batched_randperm Hq)
    as (input & store' & Hrun & Hlen & _ & Hkeep & Hfine & _ & _ & Hin3).
  eexists input, _, store'. split; [exact Hrun |]. split; [exact Hlen |].
  split; [exact Hkeep |]. split.
  - intros i b p Hqi Hi Hb Hp. rewrite Hfine by lia.
    rewrite (nth_indep _ [] (assign_from t (mask_upper_level self) []))
      by now rewrite length_map.
    rewrite (map_nth (assign_from t (mask_upper_level self))).
    now apply assign_from_nth.
  - intros i Hqi Hi. rewrite Hin3, Hfine by lia. reflexivity.
Qed.

Lemma masking_footprint_witness :
  exists input labels store',
    forward_masking (example_model []) example_training_codes 0 1 [0%R] [[0%nat]]
      = Ok (input, labels, store') /\
    length store' = length example_training_codes /\
    (forall i, (i <= 0)%nat -> nth i store' [] = nth i example_training_codes []) /\
    (forall i b p, (0 < i)%nat -> (i < length example_training_codes)%nat ->
       (b < length (nth i example_training_codes []))%nat ->
       (p < length (nth b (nth i example_training_codes []) []))%nat ->
       nth p (nth b (nth i store' []) []) 0 =
       if (p <? 1)%nat then nth p (nth b (nth i example_training_codes []) []) 0
       else mask_upper_level (example_model [])) /\
    (forall i, (0 < i)%nat -> (i < length example_training_codes)%nat ->
       nth i input [] = nth i store' []).
Proof.
  apply (masking_footprint (example_model []) example_training_codes 0 1 [0%R] [[0%nat]]).
  simpl. lia.
Defined.

(** X13.  The masked input has one row per level of [codes]: the levels
    coarser than the mask level are the original codes, the mask level is
    the masked copy made by [_level_mask], and the labels are those of
    [_level_mask] on the original codes of the mask level. *)
Theorem masked_input_levels (self : SoundStorm) (codes : list (list (list Z)))
    (q t : nat) (rand_times : list R) (batched_randperm : list (list nat)) :
  (q < length codes)%nat ->
  exists input labels store',
    forward_masking self codes q t rand_times batched_randperm
      = Ok (input, labels, store') /\
    length input = length codes /\
    (forall i, (i < q)%nat -> nth i input [] = nth i codes []) /\
    nth q input [] =
      fst (_level_mask self (nth q codes []) (length (hd [] (hd [] codes))) t
             rand_times batched_randperm) /\
    labels =
      snd (_level_mask self (nth q codes []) (length (hd [] (hd [] codes))) t
             rand_times batched_randperm).
Proof.
  intros Hq.
  destruct (forward_masking_spec self codes q t rand_times batched_randperm Hq)
    as (input & store' & Hrun & _ & Hlen & _ & _ & Hin1 & Hin2 & _).
  eexists input, _, store'. split; [exact Hrun |]. auto.
Qed.

Lemma masked_input_levels_witness :
  exists input labels store',
    forward_masking (example_model []) example_training_codes 1 0 [0%R] [[1; 0]%nat]
      = Ok (input, labels, store') /\
    length input = length example_training_codes /\
    (forall i, (i < 1)%nat -> nth i input [] = nth i example_training_codes []) /\
    nth 1 input [] =
      fst (_level_mask (example_model []) (nth 1 example_training_codes [])
             (length (hd [] (hd [] example_training_codes))) 0 [0%R] [[1; 0]%nat]) /\
    labels =
      snd (_level_mask (example_model []) (nth 1 example_training_codes [])
             (length (hd [] (hd [] example_training_codes))) 0 [0%R] [[1; 0]%nat]).
Proof.
  apply (masked_input_levels (example_model []) example_training_codes 1 0
           [0%R] [[1; 0]%nat]).
  simpl. lia.
Defined.

(** * Further properties: filtering and sampling *)

Lemma Qltb_true (x y : Q) : negb (Qle_bool y x) = true <-> (x < y)%Q.
Proof.
  rewrite negb_true_iff. split.
  - intros H. apply Qnot_le_lt. intros Hle. apply Qle_bool_iff in Hle. congruence.
  - intros H. destruct (Qle_bool y x) eqn:E; [| reflexivity].
    apply Qle_bool_iff in E. exfalso. exact (Qlt_not_le _ _ H E).
Qed.

Lemma Qltb_false (x y : Q) : negb (Qle_bool y x) = false <-> (y <= x)%Q.
Proof. rewrite negb_false_iff. apply Qle_bool_iff. Qed.

Lemma ext_lt_irrefl (x : option Q) : ext_lt x x = false.
Proof. destruct x as [x |]; [| reflexivity]. apply Qltb_false, Qle_refl. Qed.

Lemma ext_lt_below (b p x : option Q) :
  ext_lt b p = false -> ext_lt b x = true -> ext_lt x p = false /\ ext_lt p x = true.
Proof.
  destruct b as [b |], p as [p |], x as [x |]; cbn; try discriminate; auto.
  intros H1 H2. apply Qltb_false in H1. apply Qltb_true in H2. split.
  - apply Qltb_false. apply Qlt_le_weak. eapply Qle_lt_trans; eassumption.
  - apply Qltb_true. eapply Qle_lt_trans; eassumption.
Qed.

Lemma argmax_from_spec :
  forall (l pre : list (option Q)) (best : nat) (bv : option Q),
    (best < length pre)%nat ->
    nth best pre None = bv ->
    (forall j, (j < length pre)%nat -> ext_lt bv (nth j pre None) = false) ->
    (forall j, (j < best)%nat -> ext_lt (nth j pre None) bv = true) ->
    (argmax_from l (length pre) best bv < length (pre ++ l))%nat /\
    (forall j, (j < length (pre ++ l))%nat ->
       ext_lt (nth (argmax_from l (length pre) best bv) (pre ++ l) None)
              (nth j (pre ++ l) None) = false) /\
    (forall j, (j < argmax_from l (length pre) best bv)%nat ->
       ext_lt (nth j (pre ++ l) None)
              (nth (argmax_from l (length pre) best bv) (pre ++ l) None) = true).
Proof.
  induction l as [| x l IH]; intros pre best bv Hb Hbv Hmax Hfirst.
  - cbn [argmax_from]. rewrite app_nil_r, Hbv. auto.
  - cbn [argmax_from].
    replace (pre ++ x :: l) with ((pre ++ [x]) ++ l) by now rewrite <- app_assoc.
    replace (S (length pre)) with (length (pre ++ [x]))
      by (rewrite length_app; simpl; lia).
    assert (Hx : nth (length pre) (pre ++ [x]) None = x)
      by (rewrite app_nth2, Nat.sub_diag by lia; reflexivity).
    assert (Hpre : forall j, (j < length pre)%nat ->
              nth j (pre ++ [x]) None = nth j pre None)
      by (intros j Hj; now rewrite app_nth1).
    destruct (ext_lt bv x) eqn:E.
    + apply IH.
      * rewrite length_app. simpl. lia.
      * exact Hx.
      * intros j Hj. rewrite length_app in Hj. simpl in Hj.
        destruct (Nat.eq_dec j (length pre)) as [-> | Hne].
        -- rewrite Hx. apply ext_lt_irrefl.
        -- rewrite Hpre by lia.
           exact (proj1 (ext_lt_below bv _ x (Hmax j ltac:(lia)) E)).
      * intros j Hj. rewrite Hpre by lia.
        exact (proj2 (ext_lt_below bv _ x (Hmax j ltac:(lia)) E)).
    + apply IH.
      * rewrite length_app. simpl. lia.
      * rewrite Hpre by lia. exact Hbv.
      * intros j Hj. rewrite length_app in Hj. simpl in Hj.
        destruct (Nat.eq_dec j (length pre)) as [-> | Hne].
        -- now rewrite Hx.
        -- rewrite Hpre by lia. apply Hmax. lia.
      * intros j Hj. rewrite Hpre by lia. now apply Hfirst.
Qed.

Lemma argmax_spec (l : list (option Q)) :
  l <> [] ->
  exists i,
    argmax l = Ok i /\ (i < length l)%nat /\
    (forall j, (j < length l)%nat -> ext_lt (nth i l None) (nth j l None) = false) /\
    (forall j, (j < i)%nat -> ext_lt (nth j l None) (nth i l None) = true).
Proof.
  destruct l as [| x l]; [congruence |]. intros _.
  exists (argmax_from l 1 0 x). split; [reflexivity |].
  apply (argmax_from_spec l [x] 0%nat x).
  - simpl. lia.
  - reflexivity.
  - intros j Hj. simpl in Hj. replace j with 0%nat by lia. apply ext_lt_irrefl.
  - intros j Hj. lia.
Qed.

Lemma perturbed_nth (t : list (option Q)) (noise : list Q) (T : Q) (j : nat) :
  length noise = length t -> (j < length t)%nat ->
  nth j (map (fun tn : option Q * Q =>
                option_map (fun x : Q => (x / T + snd tn)%Q) (fst tn))
             (combine t noise)) None =
  option_map (fun x : Q => (x / T + nth j noise 0)%Q) (nth j t None).
Proof.
  intros Hl Hj. now rewrite (map_combine_nth _ t noise j None 0%Q None) by lia.
Qed.

Lemma gumbel_sample_finite (t : list (option Q)) (noise : list Q)
    (temperature : Q) (j : nat) :
  length noise = length t ->
  (j < length t)%nat -> nth j t None <> None ->
  exists i,
    gumbel_sample t noise temperature = Ok i /\
    (i < length t)%nat /\ nth i t None <> None.
Proof.
  intros Hl Hj Hfin. unfold gumbel_sample.
  set (T := py_max temperature temperature_floor).
  set (p := map (fun tn : option Q * Q =>
                   option_map (fun x : Q => (x / T + snd tn)%Q) (fst tn))
                (combine t noise)).
  assert (Hpl : length p = length t)
    by (unfold p; rewrite length_map, length_combine; lia).
  destruct (argmax_spec p) as (i & Hi & Hlt & Hmax & _).
  { intros E. rewrite E in Hpl. simpl in Hpl. lia. }
  exists i. split; [exact Hi |]. split; [lia |].
  intros Hnone. specialize (Hmax j ltac:(lia)).
  unfold p in Hmax. rewrite !perturbed_nth in Hmax by lia.
  rewrite Hnone in Hmax. destruct (nth j t None); [discriminate | congruence].
Qed.

(** X14.  [gumbel_sample] never picks a code that [top_k] removed: on a row
    with at least one finite logit it returns an index of the row whose
    logit is finite, whatever the noise and the temperature. *)
Theorem gumbel_sample_avoids_filtered (t : list (option Q)) (noise : list Q)
    (temperature : Q) (j : nat) :
  length noise = length t ->
  (j < length t)%nat -> nth j t None <> None ->
  exists i,
    gumbel_sample t noise temperature = Ok i /\
    (i < length t)%nat /\ nth i t None <> None.
Proof. apply gumbel_sample_finite. Qed.

Lemma gumbel_sample_avoids_filtered_witness :
  exists i,
    gumbel_sample [None; Some 1; None]%Q [3; 0; 5]%Q 1 = Ok i /\
    (i < length [None; Some 1; None]%Q)%nat /\ nth i [None; Some 1; None]%Q None <> None.
Proof.
  apply (gumbel_sample_avoids_filtered [None; Some 1; None]%Q [3; 0; 5]%Q 1 1).
  - reflexivity.
  - simpl. lia.
  - discriminate.
Defined.






Lemma mapM_map {A B : Type} (f : A -> result B) (g : A -> B) (l : list A) :
  (forall a, In a l -> f a = Ok (g a)) -> mapM f l = Ok (map g l).
Proof.
  induction l as [| a l IH]; intros H; [reflexivity |].
  cbn [mapM map]. rewrite (H a (or_introl eq_refl)). cbn [bind].
  rewrite IH by (intros x Hx; apply H; now right). reflexivity.
Qed.


Lemma top_k_count_range0 (thres : Q) (V : nat) :
  (0 <= thres)%Q -> (thres <= 1)%Q ->
  0 <= Qceiling ((1 - thres) * inject_Z (Z.of_nat V)) <= Z.of_nat V.
Proof.
  intros H0 H1.
  assert (HV : (0 <= inject_Z (Z.of_nat V))%Q).
  { change (inject_Z 0 <= inject_Z (Z.of_nat V))%Q. rewrite <- Zle_Qle. lia. }
  split.
  - rewrite <- (Qceiling_Z 0). apply Qceiling_resp_le.
    apply Qmult_le_0_compat; [| exact HV].
    unfold Qminus. rewrite <- (Qplus_opp_r thres).
    apply Qplus_le_l. exact H1.
  - rewrite <- (Qceiling_Z (Z.of_nat V)) at 2. apply Qceiling_resp_le.
    rewrite <- (Qmult_1_l (inject_Z (Z.of_nat V))) at 2.
    apply Qmult_le_compat_r; [| exact HV].
    unfold Qminus. rewrite <- (Qplus_0_r 1) at 2.
    apply Qplus_le_r. now apply (Qopp_le_compat 0).
Qed.



Lemma topk_all (scores : list Q) (idx : list nat) (j : nat) :
  topk scores (Z.of_nat (length scores)) = Ok idx -> (j < length scores)%nat -> In j idx.
Proof.
  intros Htop Hj.
  assert (Hincl : incl (seq 0 (length scores)) idx).
  { apply NoDup_length_incl.
    - exact (topk_NoDup _ _ _ Htop).
    - rewrite length_seq, (topk_length _ _ _ Htop). lia.
    - intros i Hi. apply in_seq. pose proof (topk_bound _ _ _ i Htop Hi). lia. }
  apply Hincl, in_seq. lia.
Qed.

(** X17.  Threshold 0 filters nothing: [top_k] returns every logit of every
    position unchanged. *)
Theorem top_k_threshold_zero_keeps_all (logits : list (list Q)) (thres : Q) (V : nat) :
  (thres == 0)%Q -> logits <> [] -> Forall (fun row => length row = V) logits ->
  top_k logits thres = Ok (map (map Some) logits).
Proof.
  intros H0 Hne Hrows.
  assert (Hhd : length (hd [] logits) = V).
  { destruct logits as [| row rest]; [contradiction |]. now inversion Hrows. }
  unfold top_k. rewrite Hhd.
  assert (Hk : Qceiling ((1 - thres) * inject_Z (Z.of_nat V)) = Z.of_nat V).
  { rewrite <- (Qceiling_Z (Z.of_nat V)) at 2. apply Qceiling_comp.
    rewrite H0. unfold Qminus. change (- 0)%Q with 0%Q.
    now rewrite Qplus_0_r, Qmult_1_l. }
  rewrite Hk. apply mapM_map. intros row Hrow.
  rewrite Forall_forall in Hrows. specialize (Hrows row Hrow).
  destruct (topk_ok row (Z.of_nat V) ltac:(lia)) as [idx Htop].
  unfold top_k_row. rewrite Htop. cbn [bind]. f_equal.
  transitivity (map Some (map (fun p => nth p row 0%Q) (seq 0 (length row))));
    [| now rewrite map_nth_seq].
  rewrite map_map. apply map_ext_in. intros j Hj. apply in_seq in Hj.
  rewrite <- Hrows in Htop.
  replace (existsb (Nat.eqb j) idx) with true; [reflexivity |].
  symmetry. apply existsb_eqb_in. apply (topk_all row idx j Htop). lia.
Qed.

Lemma top_k_threshold_zero_keeps_all_witness :
  top_k [[1; 2; 3]; [6; 5; 4]]%Q 0 = Ok (map (map Some) [[1; 2; 3]; [6; 5; 4]]%Q).
Proof.
  apply (top_k_threshold_zero_keeps_all [[1; 2; 3]; [6; 5; 4]]%Q 0 3).
  - reflexivity.
  - discriminate.
  - repeat constructor.
Defined.

Lemma Forall2_nth_at {A B : Type} (P : A -> B -> Prop) (l : list A) (l' : list B)
    (n : nat) (d : A) (d' : B) :
  Forall2 P l l' -> (n < length l)%nat -> P (nth n l d) (nth n l' d').
Proof.
  intros H. revert n. induction H as [| a b l l' Hab _ IH]; intros n Hn.
  - simpl in Hn. lia.
  - destruct n as [| n]; [exact Hab |]. simpl in Hn |- *. apply IH. lia.
Qed.

Lemma finite_logit_exists (fr : list (option Q)) :
  (1 <= finite_logits fr)%nat -> exists i, (i < length fr)%nat /\ nth i fr None <> None.
Proof.
  unfold finite_logits. intros H.
  destruct (filter (fun x : option Q => match x with Some _ => true | None => false end) fr)
    as [| x rest] eqn:E; [simpl in H; lia |].
  assert (Hin : In x (filter (fun x : option Q =>
                                match x with Some _ => true | None => false end) fr))
    by (rewrite E; now left).
  apply filter_In in Hin. destruct Hin as [Hin Hx].
  destruct (In_nth _ _ None Hin) as (i & Hi & Ei).
  exists i. split; [exact Hi |]. rewrite Ei. now destruct x.
Qed.

Lemma top_k_positions (logits : list (list Q)) (thres : Q) (V : nat) :
  (0 <= thres)%Q -> (thres < 1)%Q -> (1 <= V)%nat ->
  logits <> [] -> Forall (fun row => length row = V) logits ->
  exists out,
    top_k logits thres = Ok out /\
    forall pos, (pos < length logits)%nat ->
      length (nth pos logits []) = V /\
      top_fraction_kept (Qceiling ((1 - thres) * inject_Z (Z.of_nat V)))
        (nth pos logits []) (nth pos out []) /\
      exists i0, (i0 < V)%nat /\ nth i0 (nth pos out []) None <> None.
Proof.
  intros H0 H1 HV Hne Hrows.
  assert (Hhd : length (hd [] logits) = V).
  { destruct logits as [| row rest]; [contradiction |]. now inversion Hrows. }
  set (k := Qceiling ((1 - thres) * inject_Z (Z.of_nat V))).
  destruct (mapM_Forall2 (top_k_row k) (top_fraction_kept k) logits)
    as (out & Hout & Hall).
  { intros row Hrow. rewrite Forall_forall in Hrows. apply top_k_row_spec.
    rewrite (Hrows row Hrow). apply top_k_count_range0; [exact H0 |].
    now apply Qlt_le_weak. }
  exists out. split; [unfold top_k; rewrite Hhd; exact Hout |].
  intros pos Hpos.
  pose proof (Forall2_nth_at _ _ _ pos [] [] Hall Hpos) as Hkept.
  assert (Hlen : length (nth pos logits []) = V).
  { rewrite Forall_forall in Hrows. apply Hrows, nth_In, Hpos. }
  split; [exact Hlen |]. split; [exact Hkept |].
  destruct Hkept as (Hl & Hcount & _).
  pose proof (top_k_count_positive thres V H1 HV) as Hk1. fold k in Hk1.
  destruct (finite_logit_exists (nth pos out [])) as (i0 & Hi0 & Hfin);
    [rewrite Hcount; lia |].
  exists i0. split; [lia | exact Hfin].
Qed.

(** X18.  For a threshold in [0, 1) the best-scoring code of every
    position survives the filter: some kept logit is at least as large as
    every logit of the position. *)
Theorem top_k_keeps_a_largest_logit (logits : list (list Q)) (thres : Q) (V : nat) :
  (0 <= thres)%Q -> (thres < 1)%Q -> (1 <= V)%nat ->
  logits <> [] -> Forall (fun row => length row = V) logits ->
  exists out,
    top_k logits thres = Ok out /\
    forall pos, (pos < length logits)%nat ->
      exists i, (i < V)%nat /\
        nth i (nth pos out []) None = Some (nth i (nth pos logits []) 0%Q) /\
        forall j, (j < V)%nat ->
          (nth j (nth pos logits []) 0 <= nth i (nth pos logits []) 0)%Q.
Proof.
  intros H0 H1 HV Hne Hrows.
  destruct (top_k_positions logits thres V H0 H1 HV Hne Hrows) as (out & Hout & Hpos).
  exists out. split; [exact Hout |]. intros pos Hp.
  destruct (Hpos pos Hp) as (Hlen & (Hl & _ & Hent & Hdom) & i0 & Hi0 & Hfin).
  set (row := nth pos logits []) in *. set (fr := nth pos out []) in *.
  destruct (argmax_spec (map Some row)) as (m & _ & Hm & Hmax & _).
  { destruct row; [simpl in Hlen; lia | discriminate]. }
  rewrite length_map in Hm, Hmax.
  assert (Hbest : forall j, (j < V)%nat -> (nth j row 0 <= nth m row 0)%Q).
  { intros j Hj. specialize (Hmax j ltac:(lia)).
    rewrite !(nth_indep (map Some row) None (Some 0%Q)) in Hmax
      by (rewrite length_map; lia).
    rewrite !(map_nth Some) in Hmax. cbn [ext_lt] in Hmax.
    now apply Qltb_false in Hmax. }
  destruct (nth m fr None) as [v |] eqn:Em.
  - exists m. split; [lia |]. split; [| exact Hbest].
    destruct (Hent m ltac:(lia)) as [E | E]; congruence.
  - exists i0. split; [exact Hi0 |]. split.
    + destruct (Hent i0 ltac:(lia)) as [E | E]; [exact E | contradiction].
    + intros j Hj. eapply Qle_trans; [apply Hbest; exact Hj |].
      apply Hdom; [lia | lia | exact Hfin | exact Em].
Qed.

Lemma top_k_keeps_a_largest_logit_witness :
  exists out,
    top_k [[1; 5; 3; 4]%Q] (1 # 2) = Ok out /\
    forall pos, (pos < length [[1; 5; 3; 4]%Q])%nat ->
      exists i, (i < 4)%nat /\
        nth i (nth pos out []) None = Some (nth i (nth pos [[1; 5; 3; 4]%Q] []) 0%Q) /\
        forall j, (j < 4)%nat ->
          (nth j (nth pos [[1; 5; 3; 4]%Q] []) 0 <= nth i (nth pos [[1; 5; 3; 4]%Q] []) 0)%Q.
Proof.
  apply (top_k_keeps_a_largest_logit [[1; 5; 3; 4]%Q] (1 # 2) 4).
  - discriminate.
  - reflexivity.
  - lia.
  - discriminate.
  - repeat constructor.
Defined.

(** X19.  Filtering then sampling (lines 333-334): for a threshold in
    [0, 1), whatever the noise and the temperature, the id sampled at a
    position is one of the codes [top_k] kept, and its logit is at least as
    large as every logit that was filtered out. *)
Theorem sampled_id_is_among_top_k (logits : list (list Q)) (thres : Q) (V : nat)
    (noise : list Q) (temperature : Q) :
  (0 <= thres)%Q -> (thres < 1)%Q -> (1 <= V)%nat ->
  logits <> [] -> Forall (fun row => length row = V) logits ->
  length noise = V ->
  exists out,
    top_k logits thres = Ok out /\
    forall pos, (pos < length logits)%nat ->
      exists i,
        gumbel_sample (nth pos out []) noise temperature = Ok i /\
        (i < V)%nat /\
        nth i (nth pos out []) None = Some (nth i (nth pos logits []) 0%Q) /\
        forall j, (j < V)%nat -> nth j (nth pos out []) None = None ->
          (nth j (nth pos logits []) 0 <= nth i (nth pos logits []) 0)%Q.
Proof.
  intros H0 H1 HV Hne Hrows Hnoise.
  destruct (top_k_positions logits thres V H0 H1 HV Hne Hrows) as (out & Hout & Hpos).
  exists out. split; [exact Hout |]. intros pos Hp.
  destruct (Hpos pos Hp) as (Hlen & (Hl & _ & Hent & Hdom) & i0 & Hi0 & Hfin).
  destruct (gumbel_sample_finite (nth pos out []) noise temperature i0)
    as (i & Hi & Hlt & Hkept); [lia | lia | exact Hfin |].
  exists i. split; [exact Hi |]. split; [lia |]. split.
  - destruct (Hent i ltac:(lia)) as [E | E]; [exact E | contradiction].
  - intros j Hj Hdrop. apply Hdom; [lia | lia | exact Hkept | exact Hdrop].
Qed.

Lemma sampled_id_is_among_top_k_witness :
  exists out,
    top_k [[1; 5; 3; 4]%Q] (1 # 2) = Ok out /\
    forall pos, (pos < length [[1; 5; 3; 4]%Q])%nat ->
      exists i,
        gumbel_sample (nth pos out []) [9; 0; 0; 2]%Q 1 = Ok i /\
        (i < 4)%nat /\
        nth i (nth pos out []) None = Some (nth i (nth pos [[1; 5; 3; 4]%Q] []) 0%Q) /\
        forall j, (j < 4)%nat -> nth j (nth pos out []) None = None ->
          (nth j (nth pos [[1; 5; 3; 4]%Q] []) 0 <= nth i (nth pos [[1; 5; 3; 4]%Q] []) 0)%Q.
Proof.
  apply (sampled_id_is_among_top_k [[1; 5; 3; 4]%Q] (1 # 2) 4 [9; 0; 0; 2]%Q 1).
  - discriminate.
  - reflexivity.
  - lia.
  - discriminate.
  - repeat constructor.
  - reflexivity.
Defined.

(** * Further properties: the alignment of the condition *)

Lemma fetch_idx_floor (i : nat) : Qfloor (fetch_idx i) = Z.of_nat i * 2 / 3.
Proof. unfold fetch_idx. symmetry. apply (Zdiv_Qdiv (Z.of_nat i * 2) 3). Qed.

Lemma fetch_idx_int_eq (semantic_len i : nat) :
  (1 <= semantic_len)%nat ->
  fetch_idx_int semantic_len i = Z.min (Z.of_nat i * 2 / 3) (Z.of_nat semantic_len - 1).
Proof.
  intros Hm. unfold fetch_idx_int, clamp. rewrite fetch_idx_floor.
  assert (0 <= Z.of_nat i * 2 / 3) by (apply Z.div_pos; lia).
  now rewrite Z.max_l by lia.
Qed.

Lemma fetch_idx_between (i : nat) :
  (inject_Z (Z.of_nat i * 2 / 3) <= fetch_idx i)%Q /\
  (fetch_idx i < inject_Z (Z.of_nat i * 2 / 3) + 1)%Q.
Proof.
  rewrite <- fetch_idx_floor. split.
  - apply Qfloor_le.
  - pose proof (Qlt_floor (fetch_idx i)) as H.
    rewrite inject_Z_plus in H. exact H.
Qed.

(** X20.  In [generate] the alignment never has to clamp its first index:
    for a condition of [conds_len >= 1] tokens and every frame
    [i < int(conds_len * 1.5)], [fetch_idx_int] is [floor (2 i / 3)], a
    valid index of the condition, and the blending weight [fetch_idx_res]
    lies in [0, 1). *)
Theorem alignment_needs_no_clamp (conds_len i : nat) :
  (1 <= conds_len)%nat -> (i < num_latents_input conds_len)%nat ->
  fetch_idx_int conds_len i = Z.of_nat i * 2 / 3 /\
  0 <= fetch_idx_int conds_len i <= Z.of_nat conds_len - 1 /\
  (0 <= fetch_idx_res conds_len i)%Q /\ (fetch_idx_res conds_len i < 1)%Q.
Proof.
  intros Hm Hi.
  assert (Hnl : (2 * num_latents_input conds_len <= 3 * conds_len)%nat).
  { unfold num_latents_input.
    pose proof (Nat.div_mod_eq (conds_len * 3) 2). lia. }
  assert (H0 : 0 <= Z.of_nat i * 2 / 3) by (apply Z.div_pos; lia).
  assert (Hlt : Z.of_nat i * 2 / 3 < Z.of_nat conds_len)
    by (apply Z.div_lt_upper_bound; lia).
  assert (E : fetch_idx_int conds_len i = Z.of_nat i * 2 / 3).
  { rewrite fetch_idx_int_eq by exact Hm. apply Z.min_l. lia. }
  split; [exact E |]. split; [lia |].
  unfold fetch_idx_res. rewrite E.
  destruct (fetch_idx_between i) as [Hlo Hhi]. split.
  - unfold Qminus. rewrite <- (Qplus_opp_r (inject_Z (Z.of_nat i * 2 / 3))).
    apply Qplus_le_l. exact Hlo.
  - apply (Qplus_lt_l _ _ (inject_Z (Z.of_nat i * 2 / 3))).
    unfold Qminus. rewrite <- Qplus_assoc, (Qplus_comm (- _)), Qplus_opp_r, Qplus_0_r.
    rewrite (Qplus_comm 1). exact Hhi.
Qed.

Lemma alignment_needs_no_clamp_witness :
  fetch_idx_int 4 5 = Z.of_nat 5 * 2 / 3 /\
  0 <= fetch_idx_int 4 5 <= Z.of_nat 4 - 1 /\
  (0 <= fetch_idx_res 4 5)%Q /\ (fetch_idx_res 4 5 < 1)%Q.
Proof.
  apply (alignment_needs_no_clamp 4 5).
  - lia.
  - unfold num_latents_input. simpl. lia.
Defined.

Lemma gather_ok {A : Type} (rows : list A) (idx : Z) (d : A) :
  0 <= idx < Z.of_nat (length rows) ->
  gather rows idx = Ok (nth (Z.to_nat idx) rows d).
Proof.
  intros H. unfold gather.
  replace (idx <? 0) with false by (symmetry; apply Z.ltb_ge; lia).
  replace (0 <=? idx) with true by (symmetry; apply Z.leb_le; lia).
  replace (idx <? Z.of_nat (length rows)) with true by (symmetry; apply Z.ltb_lt; lia).
  cbn [andb]. rewrite (nth_error_nth' rows d) by lia. reflexivity.
Qed.

Lemma blend_same (v : list Q) (res : Q) : Forall2 Qeq (blend v v res) v.
Proof.
  unfold blend. induction v as [| x v IH]; cbn; constructor; [| exact IH].
  ring.
Qed.

Lemma blend_left (a b : list Q) (res : Q) :
  (res == 0)%Q -> length a = length b -> Forall2 Qeq (blend a b res) a.
Proof.
  intros Hres. unfold blend. revert b.
  induction a as [| x a IH]; intros [| y b] Hl; cbn; try discriminate; constructor.
  - rewrite Hres. ring.
  - apply IH. now inversion Hl.
Qed.

Lemma sem_cond_upscale_rows (semb : list (list Q)) (acoustic_len : nat) :
  semb <> [] ->
  sem_cond_upscale semb acoustic_len =
  Ok (map (fun i =>
             blend (nth (Z.to_nat (fetch_idx_int (length semb) i)) semb [])
                   (nth (Z.to_nat (clamp 0 (Z.of_nat (length semb) - 1)
                                     (fetch_idx_int (length semb) i + 1))) semb [])
                   (fetch_idx_res (length semb) i))
          (seq 0 acoustic_len)).
Proof.
  intros Hne. assert (Hm : (1 <= length semb)%nat) by (destruct semb; simpl; [congruence | lia]).
  unfold sem_cond_upscale. apply mapM_map. intros i _.
  assert (Hidx : 0 <= fetch_idx_int (length semb) i <= Z.of_nat (length semb) - 1).
  { rewrite fetch_idx_int_eq by exact Hm.
    assert (0 <= Z.of_nat i * 2 / 3) by (apply Z.div_pos; lia). lia. }
  rewrite (gather_ok semb _ []) by lia. cbn [bind].
  rewrite (gather_ok semb _ []) by (unfold clamp; lia). reflexivity.
Qed.

(** X21.  The aligned condition.  For a condition of at least one vector,
    all of one width, [sem_cond_upscale] returns one vector per frame.  At a
    frame [i = 3 j] that falls on a condition index it is the condition
    vector [2 j] itself; and from the frame on where [floor (2 i / 3)]
    reaches the last index it is the last condition vector, however far the
    frames run past the end of the condition. *)
Theorem aligned_condition (semb : list (list Q)) (acoustic_len d : nat) :
  semb <> [] -> Forall (fun v => length v = d) semb ->
  exists out,
    sem_cond_upscale semb acoustic_len = Ok out /\
    length out = acoustic_len /\
    (forall i, (i < acoustic_len)%nat ->
       Z.of_nat (length semb) - 1 <= Z.of_nat i * 2 / 3 ->
       Forall2 Qeq (nth i out []) (nth (length semb - 1) semb [])) /\
    (forall j, (3 * j < acoustic_len)%nat -> (2 * j < length semb)%nat ->
       Forall2 Qeq (nth (3 * j) out []) (nth (2 * j) semb [])).
Proof.
  intros Hne Hd.
  assert (Hm : (1 <= length semb)%nat) by (destruct semb; simpl; [congruence | lia]).
  eexists. split; [apply (sem_cond_upscale_rows semb acoustic_len Hne) |].
  split; [now rewrite length_map, length_seq |]. split.
  - intros i Hi Htail.
    rewrite (map_seq_nth _ acoustic_len i []) by exact Hi.
    assert (E : fetch_idx_int (length semb) i = Z.of_nat (length semb) - 1).
    { rewrite fetch_idx_int_eq by exact Hm. apply Z.min_r. lia. }
    rewrite E. unfold clamp.
    replace (Z.min (Z.max (Z.of_nat (length semb) - 1 + 1) 0) (Z.of_nat (length semb) - 1))
      with (Z.of_nat (length semb) - 1) by lia.
    replace (Z.to_nat (Z.of_nat (length semb) - 1)) with (length semb - 1)%nat by lia.
    apply blend_same.
  - intros j Hj Hjm.
    rewrite (map_seq_nth _ acoustic_len (3 * j) []) by exact Hj.
    assert (Hdiv : Z.of_nat (3 * j) * 2 / 3 = Z.of_nat (2 * j)).
    { replace (Z.of_nat (3 * j) * 2) with (Z.of_nat (2 * j) * 3) by lia.
      apply Z.div_mul. lia. }
    assert (E : fetch_idx_int (length semb) (3 * j) = Z.of_nat (2 * j)).
    { rewrite fetch_idx_int_eq by exact Hm. rewrite Hdiv. apply Z.min_l. lia. }
    rewrite E, Nat2Z.id. apply blend_left.
    + unfold fetch_idx_res. rewrite E. unfold fetch_idx.
      replace (Z.of_nat (3 * j) * 2) with (Z.of_nat (2 * j) * 3) by lia.
      rewrite inject_Z_mult. change (inject_Z 3) with 3%Q. field.
    + rewrite Forall_forall in Hd. rewrite !Hd; [reflexivity | |]; apply nth_In.
      * unfold clamp. lia.
      * lia.
Qed.

Lemma aligned_condition_witness :
  exists out,
    sem_cond_upscale [[0; 0]; [3; 6]; [9; 12]]%Q 7 = Ok out /\
    length out = 7%nat /\
    (forall i, (i < 7)%nat ->
       Z.of_nat (length [[0; 0]; [3; 6]; [9; 12]]%Q) - 1 <= Z.of_nat i * 2 / 3 ->
       Forall2 Qeq (nth i out [])
         (nth (length [[0; 0]; [3; 6]; [9; 12]]%Q - 1) [[0; 0]; [3; 6]; [9; 12]]%Q [])) /\
    (forall j, (3 * j < 7)%nat -> (2 * j < length [[0; 0]; [3; 6]; [9; 12]]%Q)%nat ->
       Forall2 Qeq (nth (3 * j) out []) (nth (2 * j) [[0; 0]; [3; 6]; [9; 12]]%Q [])).
Proof.
  apply (aligned_condition [[0; 0]; [3; 6]; [9; 12]]%Q 7 2).
  - discriminate.
  - repeat constructor.
Defined.

(** X22.  An empty condition cannot be aligned: as soon as one frame is
    asked for, the lookup of index [-1] in a condition of length 0 raises an
    index error; for no frame at all the result is empty. *)
Theorem empty_condition_raises (acoustic_len : nat) :
  sem_cond_upscale [] (S acoustic_len) = Raise IndexError /\
  sem_cond_upscale [] 0 = Ok [].
Proof. split; reflexivity. Qed.

(** * Further properties: the embedding tables *)

Lemma matrix_shape_hd (rows cols : nat) (m : list (list Q)) :
  matrix_shape rows cols m -> (1 <= rows)%nat -> length (hd [] m) = cols.
Proof.
  intros [Hl Hr] H1. destruct m as [| row m]; [simpl in Hl; lia |].
  now inversion Hr.
Qed.

Lemma matrix_shape_row (rows cols : nat) (m : list (list Q)) (r : nat) :
  matrix_shape rows cols m -> (r < rows)%nat -> length (nth r m []) = cols.
Proof.
  intros [Hl Hr] H. rewrite Forall_forall in Hr. apply Hr, nth_In. lia.
Qed.

Lemma assign_block_spec (block table : list (list Q)) (rows cols R D : nat) :
  matrix_shape rows cols block -> matrix_shape R D table ->
  (1 <= rows)%nat -> (rows <= R)%nat -> (cols <= D)%nat ->
  exists table',
    assign_block block table = Ok table' /\
    matrix_shape R D table' /\
    (forall r c, (r < rows)%nat -> (c < cols)%nat ->
       nth c (nth r table' []) 0%Q = nth c (nth r block []) 0%Q) /\
    (forall r c, (r < rows)%nat -> (cols <= c)%nat ->
       nth c (nth r table' []) 0%Q = nth c (nth r table []) 0%Q) /\
    (forall r, (rows <= r)%nat -> nth r table' [] = nth r table []).
Proof.
  intros Hb Ht H1 HR HD.
  pose proof (matrix_shape_hd _ _ _ Hb H1) as Hbh.
  pose proof (matrix_shape_hd _ _ _ Ht ltac:(lia)) as Hth.
  destruct Hb as [Hbl Hbr]. pose proof Ht as [Htl Htr].
  unfold assign_block. rewrite Hbl, Hbh, Hth, Htl.
  replace (rows <=? R)%nat with true by (symmetry; now apply Nat.leb_le).
  replace (cols <=? D)%nat with true by (symmetry; now apply Nat.leb_le).
  cbn [andb]. eexists. split; [reflexivity |].
  set (top := map (fun bt : list Q * list Q => fst bt ++ skipn cols (snd bt))
                  (combine block (firstn rows table))).
  assert (Htopl : length top = rows).
  { unfold top. rewrite length_map, length_combine, length_firstn. lia. }
  assert (Htop : forall r, (r < rows)%nat ->
            nth r top [] = nth r block [] ++ skipn cols (nth r table [])).
  { intros r Hr. unfold top.
    rewrite (map_combine_nth _ _ _ r [] [] []) by (rewrite ?length_firstn; lia).
    cbn [fst snd]. now rewrite nth_firstn, (proj2 (Nat.ltb_lt r rows) Hr). }
  assert (Hrowb : forall r, (r < rows)%nat -> length (nth r block []) = cols).
  { intros r Hr. rewrite Forall_forall in Hbr. apply Hbr, nth_In. lia. }
  assert (Hrowt : forall r, (r < R)%nat -> length (nth r table []) = D).
  { intros r Hr. rewrite Forall_forall in Htr. apply Htr, nth_In. lia. }
  split; [| split; [| split]].
  - split.
    + rewrite length_app, Htopl, length_skipn. lia.
    + rewrite Forall_forall. intros row Hrow. apply in_app_or in Hrow.
      destruct Hrow as [Hrow | Hrow].
      * destruct (In_nth _ _ [] Hrow) as (r & Hr & <-). rewrite Htopl in Hr.
        rewrite Htop, length_app, length_skipn, Hrowb, Hrowt by lia. lia.
      * rewrite Forall_forall in Htr. apply Htr.
        rewrite <- (firstn_skipn rows table). apply in_or_app. now right.
  - intros r c Hr Hc. rewrite app_nth1 by lia. rewrite Htop by exact Hr.
    apply app_nth1. rewrite Hrowb by exact Hr. exact Hc.
  - intros r c Hr Hc. rewrite app_nth1 by lia. rewrite Htop by exact Hr.
    rewrite app_nth2 by (rewrite Hrowb by exact Hr; lia).
    rewrite Hrowb by exact Hr. rewrite nth_skipn. f_equal. lia.
  - intros r Hr. rewrite app_nth2 by lia. rewrite Htopl, nth_skipn. f_equal. lia.
Qed.

Lemma assign_block_too_large (block table : list (list Q)) (rows cols R D : nat) :
  matrix_shape rows cols block -> matrix_shape R D table ->
  (1 <= rows)%nat -> (1 <= R)%nat -> (R < rows)%nat \/ (D < cols)%nat ->
  assign_block block table = Raise RuntimeError.
Proof.
  intros Hb Ht H1 HR1 Hbig.
  pose proof (matrix_shape_hd _ _ _ Hb H1) as Hbh.
  pose proof (matrix_shape_hd _ _ _ Ht HR1) as Hth.
  destruct Hb as [Hbl _], Ht as [Htl _].
  unfold assign_block. rewrite Hbl, Hbh, Hth, Htl.
  destruct Hbig as [H | H].
  - replace (rows <=? R)%nat with false by (symmetry; apply Nat.leb_gt; lia).
    reflexivity.
  - replace (cols <=? D)%nat with false by (symmetry; apply Nat.leb_gt; lia).
    now rewrite andb_false_r.
Qed.

Lemma read_codebooks_spec (R D : nat) (layers code_embeds : list (list (list Q))) :
  (1024 <= R)%nat ->
  (length layers <= length code_embeds)%nat ->
  Forall (matrix_shape R D) code_embeds ->
  Forall (codebook_fits D) layers ->
  exists tables',
    read_codebooks layers code_embeds = Ok tables' /\
    length tables' = length code_embeds /\
    Forall (matrix_shape R D) tables' /\
    (forall i r c, (i < length layers)%nat -> (r < 1024)%nat ->
       (c < length (hd [] (nth i layers [])))%nat ->
       entry (nth i tables' []) r c = entry (nth i layers []) r c) /\
    (forall i r c, (i < length layers)%nat ->
       (1024 <= r)%nat \/ (length (hd [] (nth i layers [])) <= c)%nat ->
       entry (nth i tables' []) r c = entry (nth i code_embeds []) r c) /\
    (forall i, (length layers <= i)%nat -> nth i tables' [] = nth i code_embeds []).
Proof.
  intros HR. revert code_embeds.
  induction layers as [| layer layers IH]; intros code_embeds Hlen Hshape Hfit.
  - exists code_embeds. cbn [read_codebooks length].
    split; [reflexivity |]. split; [reflexivity |]. split; [exact Hshape |].
    split; [intros; lia |]. split; [intros; lia |]. reflexivity.
  - destruct code_embeds as [| table tables]; [cbn [length] in Hlen; lia |].
    inversion Hshape as [| ? ? Htable Htables]; subst.
    inversion Hfit as [| ? ? [cols [Hlayer Hcols]] Hfits]; subst.
    cbn [length] in Hlen.
    destruct (IH tables ltac:(lia) Htables Hfits)
      as (tables' & Hrun & Hl' & Hs' & Hnew & Hold & Hrest).
    destruct (assign_block_spec layer table 1024 cols R D Hlayer Htable
                ltac:(lia) HR Hcols)
      as (table' & Hassign & Hshape' & Hin & Hright & Hbelow).
    pose proof (matrix_shape_hd _ _ _ Hlayer ltac:(lia)) as Hhd.
    exists (table' :: tables'). cbn [read_codebooks].
    rewrite (proj1 Hlayer). rewrite Nat.eqb_refl.
    rewrite Hassign. cbn [bind]. rewrite Hrun. cbn [bind].
    split; [reflexivity |]. split; [cbn [length]; now rewrite Hl' |].
    split; [now constructor |].
    split; [| split].
    + intros [| i] r c Hi Hr Hc; cbn [nth length] in *.
      * rewrite Hhd in Hc. unfold entry. now apply Hin.
      * apply Hnew; [lia | exact Hr | exact Hc].
    + intros [| i] r c Hi Hrc; cbn [nth length] in *.
      * rewrite Hhd in Hrc. unfold entry.
        destruct (Nat.lt_ge_cases r 1024) as [Hr | Hr].
        -- destruct Hrc as [Hrc | Hrc]; [lia |]. now apply Hright.
        -- now rewrite Hbelow.
      * apply Hold; [lia | exact Hrc].
    + intros [| i] Hi; cbn [nth length] in *; [lia |]. apply Hrest. lia.
Qed.

Lemma read_codebooks_assert (R D : nat) (good : list (list (list Q)))
    (bad : list (list Q)) (rest code_embeds : list (list (list Q))) :
  (1024 <= R)%nat ->
  (length good < length code_embeds)%nat ->
  Forall (matrix_shape R D) code_embeds ->
  Forall (codebook_fits D) good ->
  length bad <> 1024%nat ->
  read_codebooks (good ++ bad :: rest) code_embeds = Raise AssertionError.
Proof.
  intros HR. revert code_embeds.
  induction good as [| layer good IH]; intros code_embeds Hlen Hshape Hfit Hbad.
  - destruct code_embeds as [| table tables]; [cbn [length] in Hlen; lia |].
    cbn [app read_codebooks].
    now rewrite (proj2 (Nat.eqb_neq _ _) Hbad).
  - destruct code_embeds as [| table tables]; [cbn [length] in Hlen; lia |].
    inversion Hshape as [| ? ? Htable Htables]; subst.
    inversion Hfit as [| ? ? [cols [Hlayer Hcols]] Hfits]; subst.
    cbn [length] in Hlen.
    destruct (assign_block_spec layer table 1024 cols R D Hlayer Htable
                ltac:(lia) HR Hcols) as (table' & Hassign & _).
    cbn [app read_codebooks]. rewrite (proj1 Hlayer). rewrite Nat.eqb_refl.
    rewrite Hassign. cbn [bind].
    rewrite (IH tables ltac:(lia) Htables Hfits Hbad). reflexivity.
Qed.

Lemma transpose_shape (K D : nat) (m : list (list Q)) :
  matrix_shape K D m -> (1 <= K)%nat -> matrix_shape D K (transpose m).
Proof.
  intros Hm HK. pose proof (matrix_shape_hd _ _ _ Hm HK) as Hhd.
  destruct Hm as [Hl Hr]. unfold transpose. rewrite Hhd. split.
  - now rewrite length_map, length_seq.
  - rewrite Forall_forall. intros row Hrow. apply in_map_iff in Hrow.
    destruct Hrow as (c & <- & _). now rewrite length_map.
Qed.

Lemma transpose_entry (K D : nat) (m : list (list Q)) (r c : nat) :
  matrix_shape K D m -> (1 <= K)%nat -> (r < K)%nat -> (c < D)%nat ->
  nth r (nth c (transpose m) []) 0%Q = nth c (nth r m []) 0%Q.
Proof.
  intros Hm HK Hr Hc. pose proof (matrix_shape_hd _ _ _ Hm HK) as Hhd.
  destruct Hm as [Hl _]. unfold transpose. rewrite Hhd.
  rewrite (nth_indep _ [] (map (fun row : list Q => nth 0 row 0%Q) m))
    by now rewrite length_map, length_seq.
  rewrite (map_nth (fun c0 => map (fun row : list Q => nth c0 row 0%Q) m)), seq_nth by exact Hc.
  cbn [Nat.add].
  rewrite (nth_indep _ 0%Q (nth c [] 0%Q)) by (rewrite length_map; lia).
  now rewrite (map_nth (fun row : list Q => nth c row 0%Q)).
Qed.

Lemma matrix_ext (K D : nat) (m m' : list (list Q)) :
  matrix_shape K D m -> matrix_shape K D m' ->
  (forall r c, (r < K)%nat -> (c < D)%nat ->
     nth c (nth r m []) 0%Q = nth c (nth r m' []) 0%Q) ->
  m = m'.
Proof.
  intros [Hl Hr] [Hl' Hr'] Hext.
  apply (nth_ext _ _ [] []); [congruence |].
  intros r Hlt. rewrite Hl in Hlt.
  rewrite Forall_forall in Hr, Hr'.
  assert (Hrow : length (nth r m []) = D) by (apply Hr, nth_In; lia).
  assert (Hrow' : length (nth r m' []) = D) by (apply Hr', nth_In; lia).
  apply (nth_ext _ _ 0%Q 0%Q); [congruence |].
  intros c Hc. rewrite Hrow in Hc. now apply Hext.
Qed.

Lemma transpose_involutive (K D : nat) (m : list (list Q)) :
  matrix_shape K D m -> (1 <= K)%nat -> (1 <= D)%nat ->
  transpose (transpose m) = m.
Proof.
  intros Hm HK HD.
  pose proof (transpose_shape _ _ _ Hm HK) as Ht.
  pose proof (transpose_shape _ _ _ Ht HD) as Htt.
  apply (matrix_ext K D); [exact Htt | exact Hm |].
  intros r c Hr Hc.
  rewrite (transpose_entry D K (transpose m) c r Ht HD Hc Hr).
  now apply (transpose_entry K D).
Qed.

Lemma matrix_shape_repeat (K D : nat) (row : list Q) :
  length row = D -> matrix_shape K D (repeat row K).
Proof.
  intros Hrow. split; [apply repeat_length |].
  apply Forall_forall. intros x Hx. apply repeat_spec in Hx. now subst.
Qed.

Lemma Forall_repeat {A : Type} (P : A -> Prop) (x : A) (n : nat) :
  P x -> Forall P (repeat x n).
Proof.
  intros Hx. apply Forall_forall. intros y Hy. apply repeat_spec in Hy. now subst.
Qed.

Lemma example_codebook_fits : codebook_fits 3 (repeat [1; 2]%Q 1024).
Proof. exists 2%nat. split; [now apply matrix_shape_repeat | lia]. Qed.

(** X23.  [_read_embedding_from_encodec] succeeds when every codebook it
    reads has 1024 rows and is not wider than the tables.  It then copies
    codebook [i] into the upper left block of table [i]: rows below 1024
    take the codebook's entries in the codebook's columns and keep their
    old entries to the right of them; the rows from 1024 on (the mask and
    padding ids) and the tables without a codebook are unchanged. *)
Theorem encodec_codebooks_copied (self : SoundStorm) (R D : nat)
    (code_embeds layers : list (list (list Q))) :
  (1024 <= R)%nat ->
  length code_embeds = n_q self ->
  Forall (matrix_shape R D) code_embeds ->
  Forall (codebook_fits D) (firstn (n_q self) layers) ->
  exists tables',
    _read_embedding_from_encodec self code_embeds layers = Ok tables' /\
    length tables' = n_q self /\
    Forall (matrix_shape R D) tables' /\
    (forall i r c, (i < n_q self)%nat -> (i < length layers)%nat -> (r < 1024)%nat ->
       (c < length (hd [] (nth i layers [])))%nat ->
       entry (nth i tables' []) r c = entry (nth i layers []) r c) /\
    (forall i r c, (i < n_q self)%nat -> (i < length layers)%nat ->
       (1024 <= r)%nat \/ (length (hd [] (nth i layers [])) <= c)%nat ->
       entry (nth i tables' []) r c = entry (nth i code_embeds []) r c) /\
    (forall i, (length layers <= i)%nat -> nth i tables' [] = nth i code_embeds []).
Proof.
  intros HR Hlen Hshape Hfit.
  assert (Hread : (length (firstn (n_q self) layers) <= length code_embeds)%nat).
  { rewrite length_firstn. lia. }
  destruct (read_codebooks_spec R D _ _ HR Hread Hshape Hfit)
    as (tables' & Hrun & Hl' & Hs' & Hnew & Hold & Hrest).
  assert (Hnth : forall i, (i < n_q self)%nat ->
            nth i (firstn (n_q self) layers) [] = nth i layers []).
  { intros i Hi. now rewrite nth_firstn, (proj2 (Nat.ltb_lt _ _) Hi). }
  exists tables'. unfold _read_embedding_from_encodec.
  split; [exact Hrun |]. split; [congruence |]. split; [exact Hs' |].
  split; [| split].
  - intros i r c Hi Hil Hr Hc. rewrite <- (Hnth i Hi).
    apply Hnew; [rewrite length_firstn; lia | exact Hr | now rewrite Hnth].
  - intros i r c Hi Hil Hrc.
    apply Hold; [rewrite length_firstn; lia | now rewrite Hnth].
  - intros i Hi. apply Hrest. rewrite length_firstn. lia.
Qed.

Lemma encodec_codebooks_copied_witness :
  exists tables',
    _read_embedding_from_encodec (example_model [1%nat]) example_code_embeds
      example_codebooks = Ok tables' /\
    length tables' = 8%nat /\
    Forall (matrix_shape 1028 3) tables' /\
    (forall i r c, (i < 8)%nat -> (i < length example_codebooks)%nat -> (r < 1024)%nat ->
       (c < length (hd [] (nth i example_codebooks [])))%nat ->
       entry (nth i tables' []) r c = entry (nth i example_codebooks []) r c) /\
    (forall i r c, (i < 8)%nat -> (i < length example_codebooks)%nat ->
       (1024 <= r)%nat \/ (length (hd [] (nth i example_codebooks [])) <= c)%nat ->
       entry (nth i tables' []) r c = entry (nth i example_code_embeds []) r c) /\
    (forall i, (length example_codebooks <= i)%nat ->
       nth i tables' [] = nth i example_code_embeds []).
Proof.
  apply (encodec_codebooks_copied (example_model [1%nat]) 1028 3
           example_code_embeds example_codebooks).
  - lia.
  - reflexivity.
  - apply Forall_repeat. now apply matrix_shape_repeat.
  - apply Forall_forall. intros layer Hlayer. apply firstn_incl in Hlayer.
    apply repeat_spec in Hlayer. subst layer. exact example_codebook_fits.
Defined.

(** X24.  The size of a codebook is asserted when the codebook is read: if
    the codebooks before it are accepted and it is one of the first [n_q],
    a codebook whose number of rows is not 1024 makes
    [_read_embedding_from_encodec] raise AssertionError. *)
Theorem encodec_codebook_size_asserted (self : SoundStorm) (R D : nat)
    (code_embeds good : list (list (list Q))) (bad : list (list Q))
    (rest : list (list (list Q))) :
  (1024 <= R)%nat ->
  length code_embeds = n_q self ->
  Forall (matrix_shape R D) code_embeds ->
  Forall (codebook_fits D) good ->
  (length good < n_q self)%nat ->
  length bad <> 1024%nat ->
  _read_embedding_from_encodec self code_embeds (good ++ bad :: rest)
  = Raise AssertionError.
Proof.
  intros HR Hlen Hshape Hfit Hgood Hbad.
  unfold _read_embedding_from_encodec.
  rewrite firstn_app.
  rewrite (firstn_all2 good) by lia.
  destruct (n_q self - length good)%nat as [| k] eqn:Hk; [lia |].
  cbn [firstn].
  apply (read_codebooks_assert R D); [exact HR | lia | exact Hshape | exact Hfit | exact Hbad].
Qed.

Lemma encodec_codebook_size_asserted_witness :
  _read_embedding_from_encodec (example_model [1%nat]) example_code_embeds
    ([repeat [1; 2]%Q 1024] ++ example_short_codebook :: [])
  = Raise AssertionError.
Proof.
  apply (encodec_codebook_size_asserted (example_model [1%nat]) 1028 3
           example_code_embeds [repeat [1; 2]%Q 1024] example_short_codebook []).
  - lia.
  - reflexivity.
  - apply Forall_repeat. now apply matrix_shape_repeat.
  - constructor; [exact example_codebook_fits | constructor].
  - cbn [length example_model n_q]. lia.
  - unfold example_short_codebook. rewrite repeat_length. lia.
Defined.

(** X25.  Codebooks after the first [n_q] are never read: appending further
    codebooks, of whatever size, to a list of at least [n_q] codebooks does
    not change the result of [_read_embedding_from_encodec]. *)
Theorem codebooks_beyond_n_q_not_read (self : SoundStorm)
    (code_embeds layers more : list (list (list Q))) :
  (n_q self <= length layers)%nat ->
  _read_embedding_from_encodec self code_embeds (layers ++ more)
  = _read_embedding_from_encodec self code_embeds layers.
Proof.
  intros Hlen. unfold _read_embedding_from_encodec.
  rewrite firstn_app.
  replace (n_q self - length layers)%nat with 0%nat by lia.
  cbn [firstn]. now rewrite app_nil_r.
Qed.

Lemma codebooks_beyond_n_q_not_read_witness :
  _read_embedding_from_encodec (example_model [1%nat]) example_code_embeds
    (example_codebooks ++ [example_short_codebook])
  = _read_embedding_from_encodec (example_model [1%nat]) example_code_embeds
      example_codebooks.
Proof.
  apply (codebooks_beyond_n_q_not_read (example_model [1%nat]) example_code_embeds
           example_codebooks [example_short_codebook]).
  unfold example_codebooks. rewrite repeat_length. cbn [example_model n_q]. lia.
Defined.



(** X27.  Cluster centres that do not fit the semantic table, by their
    number or by their width, make [_read_embedding_from_hubert_kmeans]
    raise RuntimeError; nothing is truncated. *)
Theorem kmeans_centers_too_large (semantic_embeds cluster_centers : list (list Q))
    (K D R dim : nat) :
  matrix_shape K D cluster_centers ->
  matrix_shape R dim semantic_embeds ->
  (1 <= K)%nat -> (1 <= D)%nat -> (1 <= R)%nat -> (1 <= dim)%nat ->
  (R < K)%nat \/ (dim < D)%nat ->
  _read_embedding_from_hubert_kmeans semantic_embeds cluster_centers
  = Raise RuntimeError.
Proof.
  intros Hc Ht HK HD HR Hdim Hbig.
  unfold _read_embedding_from_hubert_kmeans.
  rewrite (transpose_involutive K D cluster_centers Hc HK HD).
  now apply (assign_block_too_large cluster_centers semantic_embeds K D R dim).
Qed.

Lemma kmeans_centers_too_large_witness :
  _read_embedding_from_hubert_kmeans example_small_embeds example_centers
  = Raise RuntimeError.
Proof.
  apply (kmeans_centers_too_large example_small_embeds example_centers 3 2 2 3).
  - split; [reflexivity | repeat constructor].
  - now apply matrix_shape_repeat.
  - lia.
  - lia.
  - lia.
  - lia.
  - left. lia.
Defined.

(** * Further properties: the Gumbel noise *)

Lemma log_eps_pos : (0 < log_eps)%R.
Proof.
  unfold log_eps. apply Rdiv_lt_0_compat; [lra | apply pow_lt; lra].
Qed.

Lemma log_below_eps (u : R) :
  (0 <= u)%R -> (u < 1)%R -> (log u log_eps < log_eps)%R.
Proof.
  intros H0 H1. pose proof log_eps_pos as He. unfold log.
  rewrite <- (ln_exp log_eps) at 2.
  apply ln_increasing; [lra |].
  pose proof (exp_ineq1 log_eps ltac:(lra)). lra.
Qed.

Lemma log_monotone (x y eps : R) :
  (0 < x + eps)%R -> (x <= y)%R -> (log x eps <= log y eps)%R.
Proof.
  intros Hx Hxy. unfold log.
  destruct (Req_dec x y) as [-> | Hne]; [lra |].
  left. apply ln_increasing; lra.
Qed.

(** X28.  The guard [eps] keeps both logarithms of [gumbel_noise] defined:
    for every uniform sample [u] in [[0, 1)], also [u = 0], the arguments
    [u + eps] and [-log(u) + eps] are positive; and the noise does not
    decrease when the sample grows. *)
Theorem gumbel_noise_defined (u v : R) :
  (0 <= u)%R -> (u <= v)%R -> (v < 1)%R ->
  log_defined u log_eps /\
  log_defined (- log u log_eps) log_eps /\
  (gumbel_noise u <= gumbel_noise v)%R.
Proof.
  intros H0 Huv H1. pose proof log_eps_pos as He.
  pose proof (log_below_eps u H0 ltac:(lra)) as Hu.
  pose proof (log_below_eps v ltac:(lra) H1) as Hv.
  pose proof (log_monotone u v log_eps ltac:(lra) Huv) as Hmono.
  unfold log_defined. split; [lra |]. split; [lra |].
  unfold gumbel_noise.
  pose proof (log_monotone (- log v log_eps) (- log u log_eps) log_eps
                ltac:(lra) ltac:(lra)).
  lra.
Qed.

Lemma gumbel_noise_defined_witness :
  log_defined 0 log_eps /\
  log_defined (- log 0 log_eps) log_eps /\
  (gumbel_noise 0 <= gumbel_noise (1 / 2))%R.
Proof.
  apply (gumbel_noise_defined 0 (1 / 2)); lra.
Defined.
